(** * Lyric synchronisation engine of the karaoke player

    A shallow embedding of the timing code of
    [src/components/KaraokeScreen.tsx] (lyric parsing effect, [animate],
    [getMarqueeDuration]) and of [isLrcFormat] in
    [src/services/geminiService.ts].

    Conventions of the embedding.
    - A JavaScript string is the list of its UTF-16 code units ([jsstr]).
    - A JavaScript number that is known to be finite (a start time, the
      clock position, the offset) is an exact rational ([Q]); rounding of
      IEEE doubles is not modelled.  [audio.duration], which the browser
      may report as [NaN] or [Infinity], has the three-constructor type
      [jsnum].
    - An index into the line sequence is a [Z], so that [-1] is available.
    - React state is passed explicitly. *)

From Stdlib Require Import String Ascii.
From Stdlib Require Import ZArith NArith QArith List Bool Lia Lqa.
From Stdlib Require Import Sorting.Sorted Sorting.Permutation.
Import ListNotations.

Local Open Scope Z_scope.

(** ** JavaScript strings *)

Module JsString.

Definition cu := N.
Definition jsstr := list cu.

(** ASCII literals as code-unit lists. *)
Definition str (s : string) : jsstr :=
  map N_of_ascii (list_ascii_of_string s).

Definition LF : cu := 10%N.
Definition LBRACKET : cu := 91%N.
Definition RBRACKET : cu := 93%N.
Definition COLON : cu := 58%N.
Definition DOT : cu := 46%N.

(** [\d] of a non-unicode regular expression: the ten ASCII digits. *)
Definition isDigit (c : cu) : bool := (48 <=? c)%N && (c <=? 57)%N.

(** WhiteSpace and LineTerminator code points, the set [String.prototype.trim]
    removes. *)
Definition isWhiteSpace (c : cu) : bool :=
  ((9 <=? c) && (c <=? 13) || (c =? 32) || (c =? 160) || (c =? 5760)
   || (8192 <=? c) && (c <=? 8202) || (c =? 8232) || (c =? 8233)
   || (c =? 8239) || (c =? 8287) || (c =? 12288) || (c =? 65279))%N.

Fixpoint trimStart (s : jsstr) : jsstr :=
  match s with
  | c :: s' => if isWhiteSpace c then trimStart s' else s
  | [] => []
  end.

Definition trimEnd (s : jsstr) : jsstr := rev (trimStart (rev s)).

Definition trim (s : jsstr) : jsstr := trimEnd (trimStart s).

Definition isEmpty (s : jsstr) : bool :=
  match s with [] => true | _ => false end.

(** [s.split('\n')]: always at least one piece. *)
Fixpoint split_lf (s : jsstr) : list jsstr :=
  match s with
  | [] => [[]]
  | c :: s' =>
      if (c =? LF)%N then [] :: split_lf s'
      else match split_lf s' with
           | l :: ls => (c :: l) :: ls
           | [] => [[c]]
           end
  end.

(** [parseInt(s, 10)] on a string that starts with decimal digits: the value
    of the longest digit prefix.  The capture groups it is applied to consist
    of digits only (see [matchAt_digits]). *)
Fixpoint parseInt_from (acc : Z) (s : jsstr) : Z :=
  match s with
  | c :: s' =>
      if isDigit c then parseInt_from (acc * 10 + (Z.of_N c - 48)) s' else acc
  | [] => acc
  end.

Definition parseInt (s : jsstr) : Z := parseInt_from 0 s.

End JsString.
Import JsString.

(** ** The timestamp patterns *)

Module Regex.

(** One match of [/\[(\d{2}):(\d{2})[.:](\d{2,3})\]/]: the three capture
    groups. *)
Record RegExpMatch := mkMatch {
  group1 : jsstr;
  group2 : jsstr;
  group3 : jsstr
}.

Definition isSep (c : cu) : bool := (c =? DOT)%N || (c =? COLON)%N.

(** The pattern tried at the head of [s]; on success the captures and the
    input after the match.  [\d{2,3}] is greedy: three digits are taken
    when the closing bracket follows them, two otherwise. *)
Definition matchAt (s : jsstr) : option (RegExpMatch * jsstr) :=
  match s with
  | b :: m1 :: m2 :: c :: s1 :: s2 :: p :: f1 :: f2 :: x :: rest =>
      if (b =? LBRACKET)%N && isDigit m1 && isDigit m2 && (c =? COLON)%N
         && isDigit s1 && isDigit s2 && isSep p && isDigit f1 && isDigit f2
      then
        if isDigit x then
          match rest with
          | y :: rest' =>
              if (y =? RBRACKET)%N
              then Some (mkMatch [m1; m2] [s1; s2] [f1; f2; x], rest')
              else None
          | [] => None
          end
        else if (x =? RBRACKET)%N
             then Some (mkMatch [m1; m2] [s1; s2] [f1; f2], rest)
             else None
      else None
  | _ => None
  end.

(** Length of the matched text, from the captures. *)
Definition matchLength (m : RegExpMatch) : nat :=
  (8 + length (group3 m))%nat.

(** [s.matchAll(re)] with the [g] flag: matches are searched left to right,
    each search resuming after the previous match.  [skip] is the number of
    code units still covered by the last match. *)
Fixpoint matchAll_from (skip : nat) (s : jsstr) : list RegExpMatch :=
  match s with
  | [] => []
  | _ :: s' =>
      match skip with
      | S k => matchAll_from k s'
      | O =>
          match matchAt s with
          | Some (m, _) => m :: matchAll_from (matchLength m - 1) s'
          | None => matchAll_from 0 s'
          end
      end
  end.

Definition matchAll (s : jsstr) : list RegExpMatch := matchAll_from 0 s.

(** [s.replace(re, '')] with the [g] flag: every match is deleted. *)
Fixpoint replace_from (skip : nat) (s : jsstr) : jsstr :=
  match s with
  | [] => []
  | c :: s' =>
      match skip with
      | S k => replace_from k s'
      | O =>
          match matchAt s with
          | Some (m, _) => replace_from (matchLength m - 1) s'
          | None => c :: replace_from 0 s'
          end
      end
  end.

Definition replace_empty (s : jsstr) : jsstr := replace_from 0 s.

(** [/^\[\d{2}:\d{2}[.:]\d{2,3}\]/.test(s)]: the same pattern anchored at
    the start of the string. *)
Definition lrcLineRegex_test (s : jsstr) : bool :=
  match matchAt s with Some _ => true | None => false end.

End Regex.
Import Regex.

(** ** Numbers *)

Module JsNumber.

(** The values [audio.duration] can take: [NaN] before the metadata is
    loaded, [Infinity] for an unbounded stream, a finite number otherwise. *)
Inductive jsnum :=
| NaN
| Infinity
| Fin (q : Q).

Definition isFinite (d : jsnum) : bool :=
  match d with Fin _ => true | _ => false end.

(** Truthiness of a number: [NaN] and [0] are falsy. *)
Definition truthy (d : jsnum) : bool :=
  match d with
  | NaN => false
  | Infinity => true
  | Fin q => negb (Qeq_bool q 0)
  end.

(** [d - q] for a finite [q]. *)
Definition sub_fin (d : jsnum) (q : Q) : jsnum :=
  match d with
  | Fin x => Fin (x - q)
  | Infinity => Infinity
  | NaN => NaN
  end.

(** [x > y] on finite numbers. *)
Definition Qgt_bool (x y : Q) : bool := negb (Qle_bool x y).

End JsNumber.
Import JsNumber.

(** ** [KaraokeScreen.tsx] *)

Module Karaoke.

Record TimedLine := mkLine {
  text : jsstr;
  startTime : Q
}.

(** The fields of the audio element the component reads. *)
Record Audio := mkAudio {
  currentTime : Q;
  duration : jsnum;
  readyState : N;
  playbackRate : Q
}.

(** [lyrics.split('\n').filter(line => line.trim() !== '')] *)
Definition nonEmptyLines (lyrics : jsstr) : list jsstr :=
  filter (fun line => negb (isEmpty (trim line))) (split_lf lyrics).

(** Start time of one timestamp match. *)
Definition matchStartTime (m : RegExpMatch) : Q :=
  let minutes := parseInt (group1 m) in
  let seconds := parseInt (group2 m) in
  let fraction := parseInt (group3 m) in
  inject_Z minutes * 60 + inject_Z seconds
  + (if (length (group3 m) =? 2)%nat
     then inject_Z fraction / 100
     else inject_Z fraction / 1000).

(** Body of the [for (const line of lines)] loop: what one line pushes onto
    [parsedLrcLines]. *)
Definition lineEntries (line : jsstr) : list TimedLine :=
  let timestamps := matchAll line in
  match timestamps with
  | [] => []
  | _ :: _ =>
      let text := trim (replace_empty line) in
      map (fun m => mkLine text (matchStartTime m)) timestamps
  end.

Definition hasTimestamp (line : jsstr) : bool :=
  match matchAll line with [] => false | _ :: _ => true end.

(** [isLrc] and [parsedLrcLines] after the loop. *)
Definition isLrc (lines : list jsstr) : bool := existsb hasTimestamp lines.

Definition parsedLrcLines (lines : list jsstr) : list TimedLine :=
  flat_map lineEntries lines.

(** The comparator handed to [sort]. *)
Definition compareFn (a b : TimedLine) : Q := startTime a - startTime b.

(** [Array.prototype.sort] is stable; with a comparator that is a total
    preorder its result is the stable arrangement, computed here by
    insertion from the right. *)
Fixpoint insert (x : TimedLine) (l : list TimedLine) : list TimedLine :=
  match l with
  | [] => [x]
  | y :: l' =>
      if Qle_bool (compareFn x y) 0 then x :: y :: l' else y :: insert x l'
  end.

Fixpoint sort (l : list TimedLine) : list TimedLine :=
  match l with
  | [] => []
  | x :: l' => insert x (sort l')
  end.

(** [lines.map((text, index) => f text index)], indices from [i]. *)
Fixpoint mapi_from {A B} (i : Z) (f : A -> Z -> B) (l : list A) : list B :=
  match l with
  | [] => []
  | x :: l' => f x i :: mapi_from (i + 1) f l'
  end.

Definition placeholder (lines : list jsstr) : list TimedLine :=
  map (fun text => mkLine text 0) lines.

(** [calculateTimings], reading [audio.duration] when it is called.  The
    placeholder is returned when [!isFinite(duration) || duration <= 0]. *)
Definition calculateTimings (lines : list jsstr) (audio : Audio)
  : list TimedLine :=
  match duration audio with
  | Fin duration =>
      if Qle_bool duration 0 then placeholder lines
      else
        let timePerLine := (duration / inject_Z (Z.of_nat (length lines)))%Q in
        mapi_from 0
          (fun text index => mkLine text (inject_Z index * timePerLine)) lines
  | NaN | Infinity => placeholder lines
  end.

(** Component state touched by the timing code.  [metadataListener] is the
    one-shot [loadedmetadata] listener, if registered: [calculateTimings]
    closed over [lines]. *)
Record State := mkState {
  timedLyrics : list TimedLine;
  currentLineIndex : Z;
  timingOffset : Q;
  playbackRateSetting : Q;
  metadataListener : option (list jsstr)
}.

(** The [useState] initial values. *)
Definition initialState : State :=
  mkState [] (-1) (-3 # 10) 1 None.

Definition setTimedLyrics (v : list TimedLine) (st : State) : State :=
  mkState v (currentLineIndex st) (timingOffset st) (playbackRateSetting st)
          (metadataListener st).

Definition setCurrentLineIndex (v : Z) (st : State) : State :=
  mkState (timedLyrics st) v (timingOffset st) (playbackRateSetting st)
          (metadataListener st).

Definition setPlaybackRate (v : Q) (st : State) : State :=
  mkState (timedLyrics st) (currentLineIndex st) (timingOffset st) v
          (metadataListener st).

Definition setListener (v : option (list jsstr)) (st : State) : State :=
  mkState (timedLyrics st) (currentLineIndex st) (timingOffset st)
          (playbackRateSetting st) v.

(** The parsing effect after its guard ([lyrics] non-empty, audio element
    present). *)
Definition parseLyrics (lyrics : jsstr) (audio : Audio) (st : State) : State :=
  let lines := nonEmptyLines lyrics in
  if (length lines =? 0)%nat then setTimedLyrics [] st
  else
    let parsed := parsedLrcLines lines in
    if isLrc lines && (0 <? length parsed)%nat then
      setTimedLyrics (sort parsed) st
    else if (1 <=? readyState audio)%N then
      setTimedLyrics (calculateTimings lines audio) st
    else
      setListener (Some lines) (setTimedLyrics (placeholder lines) st).

(** The parsing effect: [if (!lyrics || !audio) return;] then the body. *)
Definition parseEffect (lyrics : jsstr) (audio : option Audio) (st : State)
  : State :=
  if isEmpty lyrics then st
  else match audio with
       | None => st
       | Some a => parseLyrics lyrics a st
       end.

(** The audio element fires [loadedmetadata]: a registered listener runs
    once and is removed ([once: true]). *)
Definition onLoadedMetadata (audio : Audio) (st : State) : State :=
  match metadataListener st with
  | Some lines =>
      setListener None (setTimedLyrics (calculateTimings lines audio) st)
  | None => st
  end.

(** Mounting the screen: the parsing effect runs on the initial state with
    the audio element present. *)
Definition mount (lyrics : jsstr) (audio : Audio) : State :=
  parseEffect lyrics (Some audio) initialState.

(** The sequence shown after mounting the screen with [lyrics]. *)
Definition parse (lyrics : jsstr) (audio : Audio) : list TimedLine :=
  timedLyrics (mount lyrics audio).

(** The backward scan of [animate]: indices [k-1], ..., [0]. *)
Fixpoint scan (lines : list TimedLine) (timingOffset currentTime : Q)
  (k : nat) : Z :=
  match k with
  | O => -1
  | S i =>
      match nth_error lines i with
      | Some line =>
          if Qle_bool (startTime line + timingOffset) currentTime
          then Z.of_nat i
          else scan lines timingOffset currentTime i
      | None => scan lines timingOffset currentTime i
      end
  end.

(** [newIndex] of one [animate] tick. *)
Definition newIndex (lines : list TimedLine) (timingOffset currentTime : Q) : Z :=
  scan lines timingOffset currentTime (length lines).

(** One tick of [animate]. *)
Definition animate (audio : Audio) (st : State) : State :=
  setCurrentLineIndex
    (newIndex (timedLyrics st) (timingOffset st) (currentTime audio)) st.

(** The playback-rate effect: [audio.playbackRate = playbackRate]. *)
Definition playbackRateEffect (audio : Audio) (st : State) : Audio :=
  mkAudio (currentTime audio) (duration audio) (readyState audio)
          (playbackRateSetting st).

(** Outcome of a call that may throw a [TypeError] on [undefined]. *)
Inductive completion :=
| Return (v : jsnum)
| Throw.

(** [timedLyrics[i]]: [undefined] out of range. *)
Definition at_index (lines : list TimedLine) (i : Z) : option TimedLine :=
  if i <? 0 then None else nth_error lines (Z.to_nat i).

Definition getMarqueeDuration (lines : list TimedLine) (currentLineIndex : Z)
  (audio : option Audio) : completion :=
  if (currentLineIndex <? 0) || (length lines =? 0)%nat then Return (Fin 0)
  else
    let currentLine := at_index lines currentLineIndex in
    let nextLine := at_index lines (currentLineIndex + 1) in
    match nextLine with
    | Some next =>
        match currentLine with
        | Some cur => Return (Fin (startTime next - startTime cur))
        | None => Throw
        end
    | None =>
        match audio with
        | Some a =>
            if truthy (duration a) then
              match currentLine with
              | Some cur => Return (sub_fin (duration a) (startTime cur))
              | None => Throw
              end
            else Return (Fin 5)
        | None => Return (Fin 5)
        end
    end.

End Karaoke.

(** ** [geminiService.ts] *)

Module GeminiService.

Definition isLrcFormat (text : jsstr) : bool :=
  if isEmpty text then false
  else
    let lines := split_lf (trim text) in
    let lrcLinesCount :=
      length (filter (fun line => lrcLineRegex_test (trim line)) lines) in
    (0 <? length lines)%nat
    && Qgt_bool (inject_Z (Z.of_nat lrcLinesCount) / inject_Z (Z.of_nat (length lines)))
                (1 # 2).

End GeminiService.


(** ** [geminiService.ts]: [findLyrics] *)

Module FindLyrics.

Import GeminiService.

(** [primaryModel] and [fallbackModel]. *)
Inductive Model :=
| primaryModel
| fallbackModel.

(** What a [generateContent] call comes back with: a response whose [text]
    may be [undefined], or a promise rejected with an error of some
    message. *)
Inductive Response :=
| Responded (text : option jsstr)
| Failed (message : jsstr).

(** The errors in play: the three the function constructs and the one a
    rejected [generateContent] call carries. *)
Inductive ErrorMessage :=
| ApiKeyNotConfigured
| AiFailedToRetrieve
| FailedToFindLyrics
| CollaboratorError (message : jsstr).

Inductive Outcome :=
| Resolved (text : jsstr)
| Rejected (e : ErrorMessage).

(** The text when [isLrcFormat(text)] holds; [!text] holds for an undefined
    text. *)
Definition lrcText (text : option jsstr) : option jsstr :=
  match text with
  | Some t => if isLrcFormat t then Some t else None
  | None => None
  end.

(** The [try] block: the models called, in order, and how the block
    completes. *)
Definition tryBlock (ai : Model -> Response) : list Model * Outcome :=
  match ai primaryModel with
  | Failed m => ([primaryModel], Rejected (CollaboratorError m))
  | Responded initialText =>
      match lrcText initialText with
      | Some t => ([primaryModel], Resolved t)
      | None =>
          ([primaryModel; fallbackModel],
           match ai fallbackModel with
           | Failed m => Rejected (CollaboratorError m)
           | Responded fallbackText =>
               match lrcText fallbackText with
               | Some t => Resolved t
               | None => Rejected AiFailedToRetrieve
               end
           end)
      end
  end.

(** [catch (error) { throw new Error("Failed to find lyrics. ...") }] *)
Definition catchBlock (r : list Model * Outcome) : list Model * Outcome :=
  match snd r with
  | Rejected _ => (fst r, Rejected FailedToFindLyrics)
  | Resolved _ => r
  end.

(** [findLyrics]: [apiKey] tells whether [API_KEY] is set, [ai] what each
    model answers to the prompt. *)
Definition findLyrics (apiKey : bool) (ai : Model -> Response)
  : list Model * Outcome :=
  if negb apiKey then ([], Rejected ApiKeyNotConfigured)
  else catchBlock (tryBlock ai).

End FindLyrics.

(** ** [SetupScreen]: the file name and the lyric search *)

Module SetupScreen.

Import FindLyrics.

Definition HYPHEN : cu := 45%N.

(** [s.lastIndexOf(c)]: the scan keeps the last index seen, [-1] if none. *)
Fixpoint lastIndexOf_from (c : cu) (s : jsstr) (i acc : Z) : Z :=
  match s with
  | [] => acc
  | d :: s' => lastIndexOf_from c s' (i + 1) (if (d =? c)%N then i else acc)
  end.

Definition lastIndexOf (c : cu) (s : jsstr) : Z := lastIndexOf_from c s 0 (-1).

(** [s.slice(0, e)]: a negative [e] counts from the end. *)
Definition slice0 (s : jsstr) (e : Z) : jsstr :=
  let len := Z.of_nat (length s) in
  let to := if e <? 0 then Z.max (len + e) 0 else Z.min e len in
  firstn (Z.to_nat to) s.

(** [s.split(c)] for a one-unit separator. *)
Fixpoint split (c : cu) (s : jsstr) : list jsstr :=
  match s with
  | [] => [[]]
  | d :: s' =>
      if (d =? c)%N then [] :: split c s'
      else match split c s' with
           | l :: ls => (d :: l) :: ls
           | [] => [[d]]
           end
  end.

(** [parts.join(c)] *)
Fixpoint join (c : cu) (parts : list jsstr) : jsstr :=
  match parts with
  | [] => []
  | [p] => p
  | p :: ps => p ++ c :: join c ps
  end.

(** The fields of the setup form the two handlers write. *)
Record Form := mkForm {
  lyrics : jsstr;
  error : jsstr;
  songTitle : jsstr;
  songArtist : jsstr;
  isLoadingLyrics : bool
}.

(** [parseFileName] *)
Definition parseFileName (name : jsstr) (f : Form) : Form :=
  let nameWithoutExt := slice0 name (lastIndexOf DOT name) in
  let parts := map trim (split HYPHEN nameWithoutExt) in
  if (2 <=? length parts)%nat then
    mkForm [] [] (trim (join HYPHEN (tl parts))) (hd [] parts)
           (isLoadingLyrics f)
  else
    mkForm [] [] nameWithoutExt [] (isLoadingLyrics f).

(** The [message] of each error. *)
Definition message (e : ErrorMessage) : jsstr :=
  match e with
  | ApiKeyNotConfigured =>
      str "API_KEY is not configured. Please set the environment variable."
  | AiFailedToRetrieve =>
      str "AI failed to retrieve synchronized lyrics in the correct format, even after a retry. Please double-check the song title/artist or enter the lyrics manually."
  | FailedToFindLyrics =>
      str "Failed to find lyrics. The model may be unavailable or the song not found. Please try again or enter them manually."
  | CollaboratorError m => m
  end.

(** [err.message || 'An unknown error occurred.'] *)
Definition messageOr (m : jsstr) : jsstr :=
  if isEmpty m then str "An unknown error occurred." else m.

(** [handleFindLyrics], once the promise of [findLyrics] has settled. *)
Definition handleFindLyrics (apiKey : bool) (ai : Model -> Response) (f : Form)
  : Form :=
  if isEmpty (songTitle f) then
    mkForm (lyrics f) (str "Please enter a song title to find lyrics.")
           (songTitle f) (songArtist f) (isLoadingLyrics f)
  else
    match snd (findLyrics apiKey ai) with
    | Resolved fetchedLyrics =>
        mkForm fetchedLyrics [] (songTitle f) (songArtist f) false
    | Rejected e =>
        mkForm (lyrics f) (messageOr (message e)) (songTitle f) (songArtist f)
               false
    end.

End SetupScreen.

(** ** [KaraokeScreen.tsx]: the life of the synchronisation loop *)

Module SyncLoop.

Import Karaoke.

(** What the [animate] of one run of the effect has captured. *)
Record Closure := mkClosure {
  capturedLyrics : list TimedLine;
  capturedOffset : Q
}.

Inductive PlaybackState :=
| idle
| playing
| ended.

(** The screen and the browser's frame queue.  [frameRef] is
    [animationFrameRef.current]; [pending] lists the requested frames that
    were neither run nor cancelled, with their callback; [nextHandle] is the
    handle the next [requestAnimationFrame] returns; [listening] is the
    closure of the handlers registered on the audio element, if any. *)
Record Screen := mkScreen {
  state : State;
  playbackState : PlaybackState;
  frameRef : option N;
  pending : list (N * Closure);
  nextHandle : N;
  listening : option Closure
}.

(** [requestAnimationFrame(animate)] and the assignment of its handle to
    [animationFrameRef.current]. *)
Definition requestFrame (cl : Closure) (s : Screen) : Screen :=
  mkScreen (state s) (playbackState s) (Some (nextHandle s))
           ((nextHandle s, cl) :: pending s) (nextHandle s + 1) (listening s).

(** [if (animationFrameRef.current) cancelAnimationFrame(...)]: a handle of
    [0] is falsy. *)
Definition cancelFrame (s : Screen) : Screen :=
  match frameRef s with
  | Some h =>
      if (h =? 0)%N then s
      else mkScreen (state s) (playbackState s) (frameRef s)
                    (filter (fun p => negb (fst p =? h)%N) (pending s))
                    (nextHandle s) (listening s)
  | None => s
  end.

Definition withState (st : State) (s : Screen) : Screen :=
  mkScreen st (playbackState s) (frameRef s) (pending s) (nextHandle s)
           (listening s).

Definition withPlayback (p : PlaybackState) (s : Screen) : Screen :=
  mkScreen (state s) p (frameRef s) (pending s) (nextHandle s) (listening s).

Definition withListening (l : option Closure) (s : Screen) : Screen :=
  mkScreen (state s) (playbackState s) (frameRef s) (pending s) (nextHandle s) l.

(** The body of [animate] as captured by [cl], at clock position [t]. *)
Definition runAnimate (cl : Closure) (t : Q) (s : Screen) : Screen :=
  requestFrame cl
    (withState (setCurrentLineIndex
                  (newIndex (capturedLyrics cl) (capturedOffset cl) t)
                  (state s)) s).

(** The synchronisation effect runs again after [timedLyrics] or
    [timingOffset] changed: the previous run is cleaned up, if it had
    registered anything, and the body runs on the new values.  The audio
    element is taken to be mounted. *)
Definition rerunEffect (s : Screen) : Screen :=
  let cleaned :=
    match listening s with
    | Some _ => cancelFrame (withListening None s)
    | None => s
    end in
  if (length (timedLyrics (state s)) =? 0)%nat then withListening None cleaned
  else withListening
         (Some (mkClosure (timedLyrics (state s)) (timingOffset (state s))))
         cleaned.

Definition setTimingOffset (v : Q) (st : State) : State :=
  mkState (timedLyrics st) (currentLineIndex st) v (playbackRateSetting st)
          (metadataListener st).

Inductive Event :=
| Play
| Pause (currentTime : Q)
| Ended
| Frame (handle : N) (currentTime : Q)
| OffsetChanged (v : Q)
| TimedLyricsChanged (lines : list TimedLine).

(** The callback of a pending frame. *)
Fixpoint callbackOf (h : N) (l : list (N * Closure)) : option Closure :=
  match l with
  | [] => None
  | (h', cl) :: l' => if (h' =? h)%N then Some cl else callbackOf h l'
  end.

Definition step (e : Event) (s : Screen) : Screen :=
  match e with
  | Play =>
      let s := withPlayback playing s in
      match listening s with
      | Some cl => requestFrame cl (cancelFrame s)
      | None => s
      end
  | Pause t =>
      let s := if Qeq_bool t 0 then withPlayback idle s else s in
      match listening s with
      | Some _ => cancelFrame s
      | None => s
      end
  | Ended =>
      let s := withPlayback ended s in
      match listening s with
      | Some _ => withState (setCurrentLineIndex (-1) (state s)) (cancelFrame s)
      | None => s
      end
  | Frame h t =>
      match callbackOf h (pending s) with
      | Some cl =>
          runAnimate cl t
            (mkScreen (state s) (playbackState s) (frameRef s)
                      (filter (fun p => negb (fst p =? h)%N) (pending s))
                      (nextHandle s) (listening s))
      | None => s
      end
  | OffsetChanged v =>
      if Qeq_bool v (timingOffset (state s)) then s
      else rerunEffect (withState (setTimingOffset v (state s)) s)
  | TimedLyricsChanged lines =>
      rerunEffect (withState (setTimedLyrics lines (state s)) s)
  end.

Definition run (events : list Event) (s : Screen) : Screen :=
  fold_left (fun s e => step e s) events s.

(** The screen once mounted, before the parsing effect has set the lines:
    the first run of the effect found [timedLyrics] empty and registered
    nothing.  Handles are positive. *)
Definition initialScreen : Screen :=
  mkScreen initialState idle None [] 1 None.

End SyncLoop.
(** * Vocabulary of the statements *)

Import Karaoke GeminiService.

Module Spec.

(** The line at index [i] has started at [currentTime]. *)
Definition started (lines : list TimedLine) (timingOffset currentTime : Q)
  (i : nat) : Prop :=
  exists line, nth_error lines i = Some line
               /\ (startTime line + timingOffset <= currentTime)%Q.

(** [x] does not start after [y]. *)
Definition le_start (x y : TimedLine) : Prop :=
  (startTime x <= startTime y)%Q.

(** Start times do not decrease along the sequence. *)
Definition nonDecreasing (l : list TimedLine) : Prop :=
  StronglySorted le_start l.

(** The line starts at [k]. *)
Definition startsAt (k : Q) (x : TimedLine) : bool :=
  Qeq_bool (startTime x) k.

(** The lines that start at [k], in sequence order. *)
Definition tied (k : Q) (l : list TimedLine) : list TimedLine :=
  filter (startsAt k) l.

(** The call returned a number below zero. *)
Definition negativeResult (c : completion) : Prop :=
  exists q, c = Return (Fin q) /\ (q < 0)%Q.

(** [l] gives line [i] of [lines] the start time [i * (D / N)], [N] the
    number of lines. *)
Definition evenlyTimed (lines : list jsstr) (D : Q) (l : list TimedLine)
  : Prop :=
  length l = length lines
  /\ forall i text,
      nth_error lines i = Some text ->
      nth_error l i
      = Some (mkLine text
                (inject_Z (Z.of_nat i) * (D / inject_Z (Z.of_nat (length lines))))).

(** The test [audioRef.current && audioRef.current.duration] succeeds: the
    audio element is mounted and reports a duration that is neither [NaN]
    nor [0]. *)
Definition durationAvailable (audio : option Audio) (d : jsnum) : Prop :=
  exists a, audio = Some a /\ duration a = d /\ d <> NaN
            /\ forall q, d = Fin q -> ~ (q == 0)%Q.

(** The same test fails. *)
Definition durationUnavailable (audio : option Audio) : Prop :=
  audio = None
  \/ exists a, audio = Some a
               /\ (duration a = NaN \/ exists q, duration a = Fin q /\ (q == 0)%Q).

(** A timestamp as written in a lyric line: two minute digits, two second
    digits, the separator before the fraction, and two or three fraction
    digits. *)
Record Stamp := mkStamp {
  minTens : N;
  minUnits : N;
  secTens : N;
  secUnits : N;
  fracSep : cu;
  fracFirst : N;
  fracSecond : N;
  fracThird : option N
}.

Definition digitChar (d : N) : cu := (48 + d)%N.

Definition fracText (s : Stamp) : jsstr :=
  digitChar (fracFirst s) :: digitChar (fracSecond s)
  :: match fracThird s with Some d => [digitChar d] | None => [] end.

(** The text of a timestamp: [[MM:SS.ff]], [[MM:SS:ff]], [[MM:SS.fff]] or
    [[MM:SS:fff]]. *)
Definition stampText (s : Stamp) : jsstr :=
  [LBRACKET; digitChar (minTens s); digitChar (minUnits s); COLON;
   digitChar (secTens s); digitChar (secUnits s); fracSep s]
  ++ fracText s ++ [RBRACKET].

(** What the pattern captures on the text of [s]. *)
Definition stampMatch (s : Stamp) : RegExpMatch :=
  mkMatch [digitChar (minTens s); digitChar (minUnits s)]
          [digitChar (secTens s); digitChar (secUnits s)]
          (fracText s).

Definition isDecimalDigit (d : N) : Prop := (d < 10)%N.

Definition wellFormed (s : Stamp) : Prop :=
  isDecimalDigit (minTens s) /\ isDecimalDigit (minUnits s)
  /\ isDecimalDigit (secTens s) /\ isDecimalDigit (secUnits s)
  /\ (fracSep s = DOT \/ fracSep s = COLON)
  /\ isDecimalDigit (fracFirst s) /\ isDecimalDigit (fracSecond s)
  /\ match fracThird s with Some d => isDecimalDigit d | None => True end.

Definition minutesOf (s : Stamp) : Z :=
  10 * Z.of_N (minTens s) + Z.of_N (minUnits s).

Definition secondsOf (s : Stamp) : Z :=
  10 * Z.of_N (secTens s) + Z.of_N (secUnits s).

(** [minutes*60 + seconds + fraction/100] for a two-digit fraction,
    [minutes*60 + seconds + fraction/1000] for a three-digit one. *)
Definition stampSeconds (s : Stamp) : Q :=
  inject_Z (minutesOf s) * 60 + inject_Z (secondsOf s)
  + match fracThird s with
    | None =>
        inject_Z (10 * Z.of_N (fracFirst s) + Z.of_N (fracSecond s)) / 100
    | Some d =>
        inject_Z (100 * Z.of_N (fracFirst s) + 10 * Z.of_N (fracSecond s)
                  + Z.of_N d) / 1000
    end.

(** Text without an opening bracket. *)
Definition noBracket (t : jsstr) : Prop := Forall (fun c => c <> LBRACKET) t.

(** A line written as pieces of bracket-free text, each followed by a
    timestamp, and a bracket-free end. *)
Definition stampedLine (pieces : list (jsstr * Stamp)) (rest : jsstr) : jsstr :=
  flat_map (fun p => fst p ++ stampText (snd p)) pieces ++ rest.

(** The same line without its timestamps. *)
Definition strippedLine (pieces : list (jsstr * Stamp)) (rest : jsstr) : jsstr :=
  flat_map fst pieces ++ rest.


(** [[01:02:345]] and [[00:07.50]]. *)
Definition stampA : Stamp := mkStamp 0 1 0 2 COLON 3 4 (Some 5%N).
Definition stampB : Stamp := mkStamp 0 0 0 7 DOT 5 0 None.

(** The validation policy in the words of the specification: more than
    half of the non-empty lines of [text] match the line-timestamp pattern
    after trimming. *)
Definition moreThanHalfOfNonEmptyLines (text : jsstr) : bool :=
  let lines := filter (fun line => negb (isEmpty (trim line))) (split_lf text) in
  let matching := filter (fun line => lrcLineRegex_test (trim line)) lines in
  (length lines <? 2 * length matching)%nat.

(** The lines [isLrcFormat] counts, and those among them that match. *)
Definition countedLines (text : jsstr) : list jsstr := split_lf (trim text).

Definition matchingLines (text : jsstr) : list jsstr :=
  filter (fun line => lrcLineRegex_test (trim line)) (countedLines text).

(** Two stamped lines separated by two blank lines. *)
Definition spacedLyrics : jsstr :=
  str "[00:01.00] a" ++ [LF; LF; LF] ++ str "[00:02.00] b".

(** Inputs of the examples. *)
Definition sunLyrics : jsstr :=
  str "[00:15.32] A" ++ [LF] ++ str "[00:17.81] B".

Definition plainLyrics : jsstr := str "hello" ++ [LF] ++ str "world".

(** An audio element whose metadata is loaded, of duration [D]. *)
Definition loadedAudio (D : Q) : Audio := mkAudio 0 (Fin D) 4 1.

(** An audio element before its metadata is loaded. *)
Definition emptyAudio : Audio := mkAudio 0 NaN 0 1.

Definition threeLines : list TimedLine :=
  [mkLine (str "a") 0; mkLine (str "b") 5; mkLine (str "c") 8].

(** The screen showing [threeLines] with the speed slider at [rate], and
    the audio element five seconds into the track. *)
Definition stateAtRate (rate : Q) : State :=
  setPlaybackRate rate (setTimedLyrics threeLines initialState).

Definition playingAudio : Audio := mkAudio 5 (Fin 12) 4 1.

End Spec.
Import Spec.


(** * Vocabulary of the further statements *)

Module Examples.

Import FindLyrics.

(** The primary model answers with timestamped lyrics at once. *)
Definition aiFirstTry (m : Model) : Response := Responded (Some sunLyrics).

(** The primary model answers with plain text, the fallback with
    timestamped lyrics. *)
Definition aiSecondTry (m : Model) : Response :=
  match m with
  | primaryModel => Responded (Some plainLyrics)
  | fallbackModel => Responded (Some sunLyrics)
  end.

(** Neither model answers with timestamped lyrics. *)
Definition aiNeverLrc (m : Model) : Response :=
  match m with
  | primaryModel => Responded (Some plainLyrics)
  | fallbackModel => Responded None
  end.

End Examples.
Import Examples.

Module LoopSpec.

Import SyncLoop.

(** What an effect run on the present lines and offset captures. *)
Definition currentClosure (s : Screen) : Closure :=
  mkClosure (timedLyrics (state s)) (timingOffset (state s)).

(** The frame queue holds nothing, or the one frame whose handle is in
    [animationFrameRef]. *)
Definition oneFrameAtMost (s : Screen) : Prop :=
  pending s = []
  \/ exists h cl, pending s = [(h, cl)] /\ frameRef s = Some h /\ h <> 0%N.

(** The handlers an effect run on the state [st] registers: none without
    lines. *)
Definition listenerFor (st : State) : option Closure :=
  match timedLyrics st with
  | [] => None
  | _ :: _ => Some (mkClosure (timedLyrics st) (timingOffset st))
  end.

(** The invariant of the loop: handles are positive, at most one frame is
    pending, it belongs to the registered handlers, and these are the ones
    of the present lines and offset. *)
Definition wellKept (s : Screen) : Prop :=
  nextHandle s <> 0%N
  /\ oneFrameAtMost s
  /\ (forall h cl, In (h, cl) (pending s) -> listening s = Some cl)
  /\ listening s = listenerFor (state s).

(** Events that leave a playing track playing: all but the end of the
    track and a pause at position [0]. *)
Definition keepsPlaying (e : Event) : bool :=
  match e with
  | Ended => false
  | Pause t => negb (Qeq_bool t 0)
  | _ => true
  end.

(** Three lines are shown and the track has been started. *)
Definition startedScreen : Screen :=
  run [TimedLyricsChanged threeLines; Play] initialScreen.

End LoopSpec.
Import LoopSpec.

(** The non-blank lines among [ls], trimmed. *)
Definition shownLines (ls : list jsstr) : list jsstr :=
  map trim (filter (fun l => negb (isEmpty (trim l))) ls).

(** Lines written out with a newline between them. *)
Fixpoint unlines (ls : list jsstr) : jsstr :=
  match ls with
  | [] => []
  | [l] => l
  | l :: ls' => l ++ LF :: unlines ls'
  end.

(** A line that begins with a well-formed timestamp and has no newline. *)
Definition stampedAtStart (l : jsstr) : Prop :=
  exists st body, wellFormed st /\ l = stampText st ++ body /\ ~ In LF body.
(** * Properties *)

(** ** The timing resolver *)

Section Resolver.

Variable lines : list TimedLine.
Variables timingOffset currentTime : Q.

Lemma scan_range k : -1 <= scan lines timingOffset currentTime k < Z.of_nat k.
Proof.
  induction k as [|i IH]; simpl; [lia|].
  destruct (nth_error lines i) as [line|]; [|lia].
  destruct (Qle_bool _ _); lia.
Qed.

Lemma scan_none k :
  (k <= length lines)%nat ->
  scan lines timingOffset currentTime k = -1 ->
  forall i, (i < k)%nat -> ~ started lines timingOffset currentTime i.
Proof.
  induction k as [|k IH]; intros Hk Hs i Hi; [lia|].
  simpl in Hs.
  destruct (nth_error lines k) as [line|] eqn:E.
  - destruct (Qle_bool (startTime line + timingOffset) currentTime) eqn:Hle;
      [lia|].
    destruct (Nat.eq_dec i k) as [->|Hne].
    + intros (l' & Hl & Hq). rewrite E in Hl. injection Hl as <-.
      apply Qle_bool_iff in Hq. congruence.
    + apply IH; [lia | assumption | lia].
  - apply nth_error_None in E. lia.
Qed.

Lemma scan_some k i :
  (k <= length lines)%nat ->
  scan lines timingOffset currentTime k = Z.of_nat i ->
  started lines timingOffset currentTime i /\ (i < k)%nat
  /\ forall j, (i < j < k)%nat -> ~ started lines timingOffset currentTime j.
Proof.
  induction k as [|k IH]; intros Hk Hs; simpl in Hs; [lia|].
  destruct (nth_error lines k) as [line|] eqn:E.
  - destruct (Qle_bool (startTime line + timingOffset) currentTime) eqn:Hle.
    + apply Nat2Z.inj in Hs. subst i. split; [|split; [lia|intros; lia]].
      exists line. split; [assumption|]. now apply Qle_bool_iff.
    + destruct (IH ltac:(lia) Hs) as (Hst & Hlt & Hmax).
      split; [assumption|]. split; [lia|].
      intros j Hj. destruct (Nat.eq_dec j k) as [->|Hne].
      * intros (l' & Hl & Hq). rewrite E in Hl. injection Hl as <-.
        apply Qle_bool_iff in Hq. congruence.
      * apply Hmax. lia.
  - apply nth_error_None in E. lia.
Qed.

End Resolver.

(** C1. [animate] resolves the active index to the greatest index whose
    line has started ([startTime + timingOffset <= currentTime], bound
    included), and to [-1] when no line has started, in particular on the
    empty sequence.  Sortedness of the sequence is not needed. *)
Theorem C1_newIndex_greatest_started :
  forall (lines : list TimedLine) (timingOffset currentTime : Q),
    let r := newIndex lines timingOffset currentTime in
    ((r = -1 /\ forall i, ~ started lines timingOffset currentTime i)
     \/ (exists i, r = Z.of_nat i
                   /\ started lines timingOffset currentTime i
                   /\ forall j, started lines timingOffset currentTime j ->
                                (j <= i)%nat))
    /\ newIndex [] timingOffset currentTime = -1.
Proof.
  intros lines off t r. split; [|reflexivity].
  subst r. unfold newIndex.
  pose proof (scan_range lines off t (length lines)) as Hr.
  destruct (Z.eq_dec (scan lines off t (length lines)) (-1)) as [E|E].
  - left. split; [assumption|].
    intros i. destruct (Nat.lt_ge_cases i (length lines)) as [Hi|Hi].
    + now apply (scan_none lines off t (length lines)).
    + intros (l & Hl & _). apply nth_error_None in Hi. congruence.
  - right. exists (Z.to_nat (scan lines off t (length lines))).
    assert (Hz : scan lines off t (length lines)
                 = Z.of_nat (Z.to_nat (scan lines off t (length lines))))
      by lia.
    destruct (scan_some lines off t (length lines) _ (Nat.le_refl _) Hz)
      as (Hst & Hlt & Hmax).
    split; [assumption|]. split; [assumption|].
    intros j Hj.
    destruct (Nat.le_gt_cases j (Z.to_nat (scan lines off t (length lines))))
      as [Hle|Hgt]; [assumption|].
    exfalso. destruct (Nat.lt_ge_cases j (length lines)) as [Hjl|Hjl].
    + apply (Hmax j); [lia | assumption].
    + destruct Hj as (l & Hl & _). apply nth_error_None in Hjl. congruence.
Qed.

(** The examples of the specification: starts [0, 5, 10], offset [-0.3]. *)
Example newIndex_at_5 :
  newIndex [mkLine [] 0; mkLine [] 5; mkLine [] 10] (-0.3) 5 = 1.
Proof. reflexivity. Qed.

Example newIndex_seek_back :
  newIndex [mkLine [] 0; mkLine [] 5; mkLine [] 10] (-0.3) 6 = 1
  /\ newIndex [mkLine [] 0; mkLine [] 5; mkLine [] 10] (-0.3) 4 = 0.
Proof. split; reflexivity. Qed.

(** Inclusive bound and ties: at the exact adjusted start of two lines that
    share it, the later one is active. *)
Example newIndex_tie :
  newIndex [mkLine [] 0; mkLine [] 5; mkLine [] 5; mkLine [] 10] (-0.3) 4.7 = 2.
Proof. reflexivity. Qed.

(** C10. The index computed by an [animate] tick depends on the line
    sequence, the offset and the clock position only: two component states
    and audio elements that agree on these, whatever their playback rates,
    resolve to the same index. *)
Theorem C10_animate_ignores_playbackRate :
  forall (a1 a2 : Audio) (s1 s2 : State),
    timedLyrics s1 = timedLyrics s2 ->
    timingOffset s1 = timingOffset s2 ->
    currentTime a1 = currentTime a2 ->
    currentLineIndex (animate a1 s1) = currentLineIndex (animate a2 s2).
Proof.
  intros a1 a2 s1 s2 Hl Ho Ht. unfold animate. simpl.
  now rewrite Hl, Ho, Ht.
Qed.

Lemma C10_animate_ignores_playbackRate_witness :
  currentLineIndex
    (animate (playbackRateEffect playingAudio (stateAtRate 0.5)) (stateAtRate 0.5))
  = currentLineIndex
      (animate (playbackRateEffect playingAudio (stateAtRate 2)) (stateAtRate 2)).
Proof.
  apply (C10_animate_ignores_playbackRate
           (playbackRateEffect playingAudio (stateAtRate 0.5))
           (playbackRateEffect playingAudio (stateAtRate 2))
           (stateAtRate 0.5) (stateAtRate 2));
    reflexivity.
Defined.

(** ** The sort *)

Lemma compareFn_le x y : Qle_bool (compareFn x y) 0 = true <-> le_start x y.
Proof.
  unfold compareFn, le_start. rewrite Qle_bool_iff. split; intros H; lra.
Qed.

Lemma compareFn_gt x y : Qle_bool (compareFn x y) 0 = false -> le_start y x.
Proof.
  intros H. unfold le_start.
  destruct (Qlt_le_dec (startTime x) (startTime y)) as [Hlt|Hle];
    [|assumption].
  apply Qlt_le_weak, compareFn_le in Hlt. congruence.
Qed.

Lemma insert_perm x l : Permutation (insert x l) (x :: l).
Proof.
  induction l as [|y l IH]; simpl; [reflexivity|].
  destruct (Qle_bool (compareFn x y) 0); [reflexivity|].
  rewrite IH. apply perm_swap.
Qed.

Lemma sort_perm l : Permutation (sort l) l.
Proof.
  induction l as [|x l IH]; simpl; [constructor|].
  rewrite insert_perm. now constructor.
Qed.

Lemma le_start_trans x y z : le_start x y -> le_start y z -> le_start x z.
Proof. unfold le_start. apply Qle_trans. Qed.

Lemma insert_nonDecreasing x l :
  nonDecreasing l -> nonDecreasing (insert x l).
Proof.
  unfold nonDecreasing.
  induction l as [|y l IH]; intros Hs; simpl.
  - repeat constructor.
  - inversion Hs as [|? ? Hs' Hall]; subst.
    destruct (Qle_bool (compareFn x y) 0) eqn:E.
    + apply compareFn_le in E. constructor; [assumption|].
      constructor; [assumption|].
      eapply Forall_impl; [|exact Hall].
      intros z Hz. eapply le_start_trans; eassumption.
    + apply compareFn_gt in E. constructor; [now apply IH|].
      eapply Permutation_Forall; [symmetry; apply insert_perm|].
      now constructor.
Qed.

Lemma sort_nonDecreasing l : nonDecreasing (sort l).
Proof.
  induction l as [|x l IH]; simpl; [constructor|].
  now apply insert_nonDecreasing.
Qed.

(** Stability: lines with one start time keep their relative order. *)
Lemma insert_tied k x l : tied k (insert x l) = tied k (x :: l).
Proof.
  unfold tied. induction l as [|y l IH]; [reflexivity|].
  simpl insert. destruct (Qle_bool (compareFn x y) 0) eqn:E; [reflexivity|].
  cbn [filter]. rewrite IH. cbn [filter].
  destruct (startsAt k y) eqn:Ey, (startsAt k x) eqn:Ex; try reflexivity.
  exfalso. unfold startsAt in Ex, Ey.
  apply Qeq_bool_iff in Ex, Ey.
  assert (Hle : le_start x y) by (unfold le_start; rewrite Ex, Ey; apply Qle_refl).
  apply compareFn_le in Hle. congruence.
Qed.

Lemma sort_tied k l : tied k (sort l) = tied k l.
Proof.
  induction l as [|x l IH]; [reflexivity|].
  simpl sort. rewrite insert_tied. unfold tied in *. simpl. now rewrite IH.
Qed.

(** ** The even division *)

Lemma mapi_from_length {A B} (f : A -> Z -> B) l i :
  length (mapi_from i f l) = length l.
Proof.
  revert i. induction l as [|x l IH]; intros i; simpl; [reflexivity|].
  now rewrite IH.
Qed.

Lemma mapi_from_nth {A B} (f : A -> Z -> B) l i n :
  nth_error (mapi_from i f l) n
  = option_map (fun x => f x (i + Z.of_nat n)) (nth_error l n).
Proof.
  revert i n. induction l as [|x l IH]; intros i [|n]; simpl; try reflexivity.
  - now rewrite Z.add_0_r.
  - rewrite IH. destruct (nth_error l n); simpl; [|reflexivity].
    do 2 f_equal. lia.
Qed.

Lemma mapi_from_starts (c : Q) (l : list jsstr) i x :
  In x (mapi_from i (fun text index => mkLine text (inject_Z index * c)) l) ->
  exists j, i <= j /\ startTime x = (inject_Z j * c)%Q.
Proof.
  revert i. induction l as [|t l IH]; intros i; simpl; [contradiction|].
  intros [<-|Hin].
  - exists i. split; [lia|reflexivity].
  - destruct (IH _ Hin) as (j & Hj & E). exists j. split; [lia|assumption].
Qed.

Lemma mapi_from_nonDecreasing (c : Q) (l : list jsstr) i :
  (0 <= c)%Q ->
  nonDecreasing (mapi_from i (fun text index => mkLine text (inject_Z index * c)) l).
Proof.
  intros Hc. unfold nonDecreasing. revert i.
  induction l as [|t l IH]; intros i; simpl; constructor; [apply IH|].
  apply Forall_forall. intros x Hin.
  destruct (mapi_from_starts _ _ _ _ Hin) as (j & Hj & E).
  unfold le_start. rewrite E. simpl.
  apply Qmult_le_compat_r; [|assumption].
  rewrite <- Zle_Qle. lia.
Qed.

Lemma placeholder_nonDecreasing l : nonDecreasing (placeholder l).
Proof.
  unfold nonDecreasing, placeholder.
  induction l as [|t l IH]; simpl; constructor; [assumption|].
  apply Forall_forall. intros x Hin. apply in_map_iff in Hin.
  destruct Hin as (t' & <- & _). unfold le_start. simpl. apply Qle_refl.
Qed.

Lemma calculateTimings_nonDecreasing lines a :
  nonDecreasing (calculateTimings lines a).
Proof.
  unfold calculateTimings.
  destruct (duration a) as [| |D]; try apply placeholder_nonDecreasing.
  destruct (Qle_bool D 0) eqn:E; [apply placeholder_nonDecreasing|].
  apply mapi_from_nonDecreasing.
  assert (HD : (0 <= D)%Q).
  { destruct (Qlt_le_dec 0 D) as [H|H]; [now apply Qlt_le_weak|].
    apply Qle_bool_iff in H. congruence. }
  apply Qmult_le_0_compat; [assumption|].
  apply Qinv_le_0_compat. change 0%Q with (inject_Z 0).
  rewrite <- Zle_Qle. lia.
Qed.

(** ** The parsing effect *)

Lemma lineEntries_map line :
  lineEntries line
  = map (fun m => mkLine (trim (replace_empty line)) (matchStartTime m))
        (matchAll line).
Proof. unfold lineEntries. now destruct (matchAll line). Qed.

Lemma lineEntries_plain line : hasTimestamp line = false -> lineEntries line = [].
Proof.
  unfold hasTimestamp, lineEntries. now destruct (matchAll line).
Qed.

Lemma lineEntries_stamped line :
  hasTimestamp line = true -> (0 < length (lineEntries line))%nat.
Proof.
  unfold hasTimestamp, lineEntries.
  destruct (matchAll line); [discriminate|]. simpl. lia.
Qed.

Lemma isLrc_parsed lines :
  isLrc lines = true -> (0 <? length (parsedLrcLines lines))%nat = true.
Proof.
  unfold isLrc, parsedLrcLines. intros H. apply Nat.ltb_lt.
  induction lines as [|line lines IH]; simpl in *; [discriminate|].
  rewrite length_app. destruct (hasTimestamp line) eqn:E.
  - pose proof (lineEntries_stamped _ E). lia.
  - simpl in H. specialize (IH H). lia.
Qed.

Lemma nonEmptyLines_empty : nonEmptyLines [] = [].
Proof. reflexivity. Qed.

Lemma calculateTimings_nil a : calculateTimings [] a = [].
Proof.
  unfold calculateTimings. destruct (duration a); try reflexivity.
  now destruct (Qle_bool q 0).
Qed.

(** The three outcomes of mounting. *)
Lemma mount_cases lyrics a :
  mount lyrics a =
  if isLrc (nonEmptyLines lyrics) then
    setTimedLyrics (sort (parsedLrcLines (nonEmptyLines lyrics))) initialState
  else if (1 <=? readyState a)%N then
    setTimedLyrics (calculateTimings (nonEmptyLines lyrics) a) initialState
  else if (length (nonEmptyLines lyrics) =? 0)%nat then initialState
  else setListener (Some (nonEmptyLines lyrics))
         (setTimedLyrics (placeholder (nonEmptyLines lyrics)) initialState).
Proof.
  unfold mount, parseEffect.
  destruct lyrics as [|c lyrics]; simpl isEmpty; cbv iota.
  - rewrite nonEmptyLines_empty, calculateTimings_nil. simpl.
    now destruct (1 <=? readyState a)%N.
  - unfold parseLyrics.
    destruct (length (nonEmptyLines (c :: lyrics)) =? 0)%nat eqn:El.
    + apply Nat.eqb_eq, length_zero_iff_nil in El. rewrite El. simpl.
      rewrite calculateTimings_nil. now destruct (1 <=? readyState a)%N.
    + destruct (isLrc (nonEmptyLines (c :: lyrics))) eqn:E; simpl andb.
      * now rewrite (isLrc_parsed _ E).
      * reflexivity.
Qed.

Lemma parse_cases lyrics a :
  parse lyrics a =
  if isLrc (nonEmptyLines lyrics) then sort (parsedLrcLines (nonEmptyLines lyrics))
  else if (1 <=? readyState a)%N then calculateTimings (nonEmptyLines lyrics) a
  else placeholder (nonEmptyLines lyrics).
Proof.
  unfold parse. rewrite mount_cases.
  destruct (isLrc (nonEmptyLines lyrics)); [reflexivity|].
  destruct (1 <=? readyState a)%N; [reflexivity|].
  destruct (length (nonEmptyLines lyrics) =? 0)%nat eqn:El; [|reflexivity].
  apply Nat.eqb_eq, length_zero_iff_nil in El. now rewrite El.
Qed.

Lemma parse_nonDecreasing lyrics a : nonDecreasing (parse lyrics a).
Proof.
  rewrite parse_cases.
  destruct (isLrc (nonEmptyLines lyrics)); [apply sort_nonDecreasing|].
  destruct (1 <=? readyState a)%N;
    [apply calculateTimings_nonDecreasing | apply placeholder_nonDecreasing].
Qed.

Lemma onLoadedMetadata_nonDecreasing a' st :
  nonDecreasing (timedLyrics st) ->
  nonDecreasing (timedLyrics (onLoadedMetadata a' st)).
Proof.
  intros H. unfold onLoadedMetadata.
  destruct (metadataListener st); [|assumption].
  simpl. apply calculateTimings_nonDecreasing.
Qed.

(** C2. Whatever the lyric text and the audio element, the sequence the
    parsing effect installs has non-decreasing start times, and so has the
    sequence installed when the metadata listener fires.  In the
    timestamped branch the sequence is the extracted lines rearranged, and
    lines that share a start time keep their extraction order. *)
Theorem C2_parsed_sequence_nonDecreasing :
  forall (lyrics : jsstr) (a : Audio),
    nonDecreasing (parse lyrics a)
    /\ (forall a', nonDecreasing (timedLyrics (onLoadedMetadata a' (mount lyrics a))))
    /\ (isLrc (nonEmptyLines lyrics) = true ->
        Permutation (parse lyrics a) (parsedLrcLines (nonEmptyLines lyrics))
        /\ forall k, tied k (parse lyrics a)
                     = tied k (parsedLrcLines (nonEmptyLines lyrics))).
Proof.
  intros lyrics a. split; [apply parse_nonDecreasing|]. split.
  - intros a'. apply onLoadedMetadata_nonDecreasing, parse_nonDecreasing.
  - intros E. rewrite parse_cases, E. split; [apply sort_perm|].
    intros k. apply sort_tied.
Qed.

Lemma C2_parsed_sequence_nonDecreasing_witness :
  nonDecreasing (parse sunLyrics (loadedAudio 60))
  /\ Permutation (parse sunLyrics (loadedAudio 60))
                 (parsedLrcLines (nonEmptyLines sunLyrics)).
Proof.
  destruct (C2_parsed_sequence_nonDecreasing sunLyrics (loadedAudio 60))
    as (H1 & _ & H3).
  split; [exact H1|]. apply H3. reflexivity.
Defined.

Lemma calculateTimings_even lines a D :
  duration a = Fin D -> (0 < D)%Q ->
  evenlyTimed lines D (calculateTimings lines a).
Proof.
  intros Hd HD. unfold calculateTimings. rewrite Hd.
  destruct (Qle_bool D 0) eqn:E.
  - apply Qle_bool_iff in E. lra.
  - split; [apply mapi_from_length|].
    intros i text Hi. rewrite mapi_from_nth, Hi. reflexivity.
Qed.

Lemma calculateTimings_placeholder lines a :
  isFinite (duration a) = false -> calculateTimings lines a = placeholder lines.
Proof.
  unfold calculateTimings. destruct (duration a); [reflexivity..|discriminate].
Qed.

(** C4. For lyrics without any timestamp: when the metadata is loaded and
    the duration is a finite positive [D], line [i] of the [N] non-empty
    lines gets the start time [i * (D / N)]; when the metadata is not loaded
    or the duration is not finite, every line gets the start time [0]; and
    when the metadata is not loaded, the listener registered for the
    metadata-ready event installs the even division of the duration read at
    that time, after which it is gone. *)
Theorem C4_even_division :
  forall (lyrics : jsstr) (a : Audio),
    isLrc (nonEmptyLines lyrics) = false ->
    (forall D, (1 <= readyState a)%N -> duration a = Fin D -> (0 < D)%Q ->
               evenlyTimed (nonEmptyLines lyrics) D (parse lyrics a))
    /\ ((readyState a < 1)%N \/ isFinite (duration a) = false ->
        parse lyrics a = map (fun text => mkLine text 0) (nonEmptyLines lyrics))
    /\ ((readyState a < 1)%N ->
        (nonEmptyLines lyrics <> [] ->
         metadataListener (mount lyrics a) = Some (nonEmptyLines lyrics))
        /\ forall a' D,
            duration a' = Fin D -> (0 < D)%Q ->
            evenlyTimed (nonEmptyLines lyrics) D
                        (timedLyrics (onLoadedMetadata a' (mount lyrics a)))
            /\ metadataListener (onLoadedMetadata a' (mount lyrics a)) = None
            /\ forall a'',
                onLoadedMetadata a'' (onLoadedMetadata a' (mount lyrics a))
                = onLoadedMetadata a' (mount lyrics a)).
Proof.
  intros lyrics a Hplain. split; [|split].
  - intros D Hr Hd HD. rewrite parse_cases, Hplain.
    apply N.leb_le in Hr. rewrite Hr. now apply calculateTimings_even.
  - intros H. rewrite parse_cases, Hplain.
    destruct (1 <=? readyState a)%N eqn:Hr; [|reflexivity].
    destruct H as [H|H]; [apply N.leb_le in Hr; lia|].
    now apply calculateTimings_placeholder.
  - intros Hr. apply N.leb_gt in Hr.
    rewrite mount_cases, Hplain, Hr.
    destruct (length (nonEmptyLines lyrics) =? 0)%nat eqn:El.
    + apply Nat.eqb_eq, length_zero_iff_nil in El. rewrite El.
      split; [congruence|]. intros a' D Hd HD. simpl.
      repeat split. intros i text Hi. now destruct i.
    + split; [reflexivity|]. intros a' D Hd HD. simpl.
      split; [now apply calculateTimings_even|]. split; reflexivity.
Qed.

Lemma C4_even_division_witness :
  evenlyTimed (nonEmptyLines plainLyrics) 10 (parse plainLyrics (loadedAudio 10))
  /\ parse plainLyrics emptyAudio
     = map (fun text => mkLine text 0) (nonEmptyLines plainLyrics)
  /\ evenlyTimed (nonEmptyLines plainLyrics) 10
       (timedLyrics (onLoadedMetadata (loadedAudio 10) (mount plainLyrics emptyAudio))).
Proof.
  split; [|split].
  - apply (C4_even_division plainLyrics (loadedAudio 10));
      [reflexivity | vm_compute; discriminate | reflexivity | reflexivity].
  - apply (C4_even_division plainLyrics emptyAudio); [reflexivity|].
    left. reflexivity.
  - apply (C4_even_division plainLyrics emptyAudio);
      reflexivity.
Defined.

(** The example of the specification: two lines over ten seconds start at
    [0] and [5]. *)
Example parse_two_lines_over_ten_seconds :
  map text (parse plainLyrics (loadedAudio 10)) = [str "hello"; str "world"]
  /\ Forall2 Qeq (map startTime (parse plainLyrics (loadedAudio 10))) [0%Q; 5%Q].
Proof. split; [reflexivity|]. repeat constructor. Qed.

(** ** The marquee duration *)

Lemma at_index_Some lines i x :
  at_index lines i = Some x ->
  0 <= i < Z.of_nat (length lines) /\ nth_error lines (Z.to_nat i) = Some x.
Proof.
  unfold at_index. destruct (i <? 0) eqn:E; [discriminate|].
  apply Z.ltb_ge in E. intros H. split; [|assumption].
  assert (Hn : nth_error lines (Z.to_nat i) <> None) by congruence.
  apply nth_error_Some in Hn. lia.
Qed.

Lemma at_index_beyond lines i :
  Z.of_nat (length lines) <= i -> at_index lines i = None.
Proof.
  intros H. unfold at_index. destruct (i <? 0); [reflexivity|].
  apply nth_error_None. lia.
Qed.

Lemma at_index_within lines i :
  0 <= i < Z.of_nat (length lines) -> exists x, at_index lines i = Some x.
Proof.
  intros H. unfold at_index. destruct (i <? 0) eqn:E; [apply Z.ltb_lt in E; lia|].
  destruct (nth_error lines (Z.to_nat i)) as [x|] eqn:En; [now exists x|].
  apply nth_error_None in En. lia.
Qed.

Lemma durationAvailable_truthy a d :
  durationAvailable (Some a) d -> duration a = d /\ truthy d = true.
Proof.
  intros (a' & Ha & Hd & Hn & Hz). injection Ha as <-. split; [assumption|].
  destruct d as [| |q]; [congruence | reflexivity |]. simpl.
  destruct (Qeq_bool q 0) eqn:E; [|reflexivity].
  apply Qeq_bool_iff in E. now destruct (Hz q eq_refl).
Qed.

Lemma guard_passes lines idx cur :
  at_index lines idx = Some cur ->
  (idx <? 0) || (length lines =? 0)%nat = false.
Proof.
  intros H. apply at_index_Some in H. destruct H as [H _].
  apply orb_false_iff. split; [apply Z.ltb_ge; lia|].
  apply Nat.eqb_neq. lia.
Qed.

(** C5. The marquee duration is [0] without an active line or without
    lines; the gap to the next line when there is one, which is the case
    exactly when [currentLineIndex + 1 < length]; on the last line, the audio
    duration minus the line's start time when the duration is available, and
    [5] when it is not. *)
Theorem C5_getMarqueeDuration_cases :
  forall (lines : list TimedLine) (idx : Z) (audio : option Audio),
    (idx < 0 \/ lines = [] ->
     getMarqueeDuration lines idx audio = Return (Fin 0))
    /\ (forall cur next,
           at_index lines idx = Some cur ->
           at_index lines (idx + 1) = Some next ->
           getMarqueeDuration lines idx audio
           = Return (Fin (startTime next - startTime cur)))
    /\ (forall cur d,
           at_index lines idx = Some cur ->
           idx + 1 = Z.of_nat (length lines) ->
           durationAvailable audio d ->
           getMarqueeDuration lines idx audio
           = Return (sub_fin d (startTime cur)))
    /\ (forall cur,
           at_index lines idx = Some cur ->
           idx + 1 = Z.of_nat (length lines) ->
           durationUnavailable audio ->
           getMarqueeDuration lines idx audio = Return (Fin 5))
    /\ (0 <= idx ->
        (idx + 1 < Z.of_nat (length lines)
         <-> exists next, at_index lines (idx + 1) = Some next)).
Proof.
  intros lines idx audio. split; [|split; [|split; [|split]]].
  - intros [H| ->]; unfold getMarqueeDuration.
    + apply Z.ltb_lt in H. now rewrite H.
    + simpl. now rewrite orb_true_r.
  - intros cur next Hc Hn. unfold getMarqueeDuration.
    now rewrite (guard_passes _ _ _ Hc), Hn, Hc.
  - intros cur d Hc Hlast Hav. unfold getMarqueeDuration.
    rewrite (guard_passes _ _ _ Hc), Hc, (at_index_beyond lines (idx + 1)) by lia.
    pose proof Hav as (a & -> & _).
    apply durationAvailable_truthy in Hav. destruct Hav as [-> ->].
    reflexivity.
  - intros cur Hc Hlast Hun. unfold getMarqueeDuration.
    rewrite (guard_passes _ _ _ Hc), (at_index_beyond lines (idx + 1)) by lia.
    destruct Hun as [-> | (a & -> & [Hd | (q & Hd & Hq)])];
      [reflexivity | now rewrite Hd | rewrite Hd; simpl].
    apply Qeq_bool_iff in Hq. now rewrite Hq.
  - intros H0. split.
    + intros Hlt. refine (at_index_within _ _ _). lia.
    + intros (next & Hn). apply at_index_Some in Hn. lia.
Qed.

(** The examples of the specification on start times [0, 5, 8]. *)
Lemma C5_getMarqueeDuration_cases_witness :
  getMarqueeDuration threeLines (-1) None = Return (Fin 0)
  /\ getMarqueeDuration threeLines 1 None = Return (Fin (8 - 5))
  /\ getMarqueeDuration threeLines 2 (Some (loadedAudio 12))
     = Return (sub_fin (Fin 12) 8)
  /\ getMarqueeDuration threeLines 2 (Some emptyAudio) = Return (Fin 5).
Proof.
  split; [|split; [|split]].
  - apply (C5_getMarqueeDuration_cases threeLines (-1) None). left. lia.
  - destruct (C5_getMarqueeDuration_cases threeLines 1 None) as (_ & H & _).
    apply (H (mkLine (str "b") 5) (mkLine (str "c") 8)); reflexivity.
  - destruct (C5_getMarqueeDuration_cases threeLines 2 (Some (loadedAudio 12)))
      as (_ & _ & H & _).
    apply (H (mkLine (str "c") 8) (Fin 12)); [reflexivity | reflexivity |].
    exists (loadedAudio 12).
    split; [reflexivity|]. split; [reflexivity|]. split; [discriminate|].
    intros q Hq. injection Hq as <-. discriminate.
  - destruct (C5_getMarqueeDuration_cases threeLines 2 (Some emptyAudio))
      as (_ & _ & _ & H & _).
    apply (H (mkLine (str "c") 8)); [reflexivity | reflexivity |].
    right. exists emptyAudio. split; [reflexivity|]. left. reflexivity.
Defined.

Example getMarqueeDuration_examples :
  getMarqueeDuration threeLines 1 None = Return (Fin 3)
  /\ getMarqueeDuration threeLines 2 (Some (loadedAudio 12)) = Return (Fin 4)
  /\ getMarqueeDuration threeLines 2 (Some emptyAudio) = Return (Fin 5)
  /\ getMarqueeDuration threeLines 2 None = Return (Fin 5).
Proof. split; [|split; [|split]]; reflexivity. Qed.

(** C6, as stated, fails: a line stamped after the end of the audio gives a
    negative duration on the last line. *)
Lemma C6_counterexample_stamp_after_end :
  0 <= 0 < Z.of_nat (length (parse (str "[00:10.00] A") (loadedAudio 5)))
  /\ negativeResult
       (getMarqueeDuration (parse (str "[00:10.00] A") (loadedAudio 5)) 0
                           (Some (loadedAudio 5))).
Proof.
  split; [vm_compute; split; [discriminate|reflexivity]|].
  exists (5 - (0 * 60 + 10 + 0 / 100))%Q. split; [reflexivity|].
  vm_compute. reflexivity.
Qed.

Lemma nonDecreasing_nth lines i j x y :
  nonDecreasing lines -> (i <= j)%nat ->
  nth_error lines i = Some x -> nth_error lines j = Some y -> le_start x y.
Proof.
  unfold nonDecreasing. intros Hs. revert i j.
  induction Hs as [|z l Hs IH Hall]; intros i j Hij Hi Hj.
  - now destruct i.
  - destruct i as [|i], j as [|j]; simpl in *; try lia.
    + injection Hi as <-. injection Hj as <-. unfold le_start. apply Qle_refl.
    + injection Hi as <-. rewrite Forall_forall in Hall.
      apply Hall. eapply nth_error_In; eassumption.
    + apply (IH i j); [lia | assumption | assumption].
Qed.

(** C6, amended.  On a sequence with non-decreasing start times and a valid
    active index, the marquee duration is returned and is not negative,
    provided that on the last line an available finite audio duration is
    not smaller than the start time of that line. *)
Theorem C6_getMarqueeDuration_nonnegative :
  forall (lines : list TimedLine) (idx : Z) (audio : option Audio),
    nonDecreasing lines ->
    0 <= idx < Z.of_nat (length lines) ->
    (forall cur D,
        idx + 1 = Z.of_nat (length lines) ->
        at_index lines idx = Some cur ->
        durationAvailable audio (Fin D) ->
        (startTime cur <= D)%Q) ->
    exists v, getMarqueeDuration lines idx audio = Return v
              /\ (v = Infinity \/ exists q, v = Fin q /\ (0 <= q)%Q).
Proof.
  intros lines idx audio Hs Hidx Hdur.
  destruct (at_index_within lines idx Hidx) as (cur & Hc).
  unfold getMarqueeDuration. rewrite (guard_passes _ _ _ Hc), Hc.
  destruct (at_index lines (idx + 1)) as [next|] eqn:Hn.
  - eexists. split; [reflexivity|]. right. eexists. split; [reflexivity|].
    apply at_index_Some in Hc, Hn. destruct Hc as [_ Hc], Hn as [_ Hn].
    assert (H : le_start cur next).
    { eapply (nonDecreasing_nth lines (Z.to_nat idx) (Z.to_nat (idx + 1)));
        [assumption | lia | assumption | assumption]. }
    unfold le_start in H. lra.
  - assert (Hlast : idx + 1 = Z.of_nat (length lines)).
    { destruct (Z_lt_ge_dec (idx + 1) (Z.of_nat (length lines))) as [Hlt|Hge];
        [|lia].
      destruct (at_index_within lines (idx + 1) ltac:(lia)) as (x & Hx).
      congruence. }
    destruct audio as [a|].
    + destruct (duration a) as [| |D] eqn:Hd; simpl.
      * eexists. split; [reflexivity|]. right. eexists. split; [reflexivity|].
        lra.
      * eexists. split; [reflexivity|]. now left.
      * destruct (Qeq_bool D 0) eqn:Hz; simpl.
        -- eexists. split; [reflexivity|]. right. eexists.
           split; [reflexivity|]. lra.
        -- eexists. split; [reflexivity|]. right. eexists.
           split; [reflexivity|].
           assert (H : (startTime cur <= D)%Q).
           { apply (Hdur cur D Hlast Hc). exists a.
             repeat split; [assumption | discriminate |].
             intros q Hq. injection Hq as <-. intros Hq.
             apply Qeq_bool_iff in Hq. congruence. }
           lra.
    + eexists. split; [reflexivity|]. right. eexists. split; [reflexivity|].
      lra.
Qed.

Lemma threeLines_nonDecreasing : nonDecreasing threeLines.
Proof.
  unfold nonDecreasing, threeLines, le_start.
  repeat constructor; simpl; lra.
Qed.

Lemma C6_getMarqueeDuration_nonnegative_witness :
  exists v, getMarqueeDuration threeLines 2 (Some (loadedAudio 12)) = Return v
            /\ (v = Infinity \/ exists q, v = Fin q /\ (0 <= q)%Q).
Proof.
  apply (C6_getMarqueeDuration_nonnegative threeLines 2 (Some (loadedAudio 12))).
  - exact threeLines_nonDecreasing.
  - simpl. lia.
  - intros cur D _ Hc (a & Ha & Hd & _).
    injection Ha as <-. injection Hd as <-. injection Hc as <-.
    simpl. lra.
Defined.

(** ** The format validator *)

Lemma split_lf_length s : (1 <= length (split_lf s))%nat.
Proof.
  induction s as [|c s IH]; simpl; [lia|].
  destruct (c =? LF)%N; simpl; [lia|].
  destruct (split_lf s); simpl in *; lia.
Qed.

Lemma ratio_above_half (c n : Z) :
  0 < n ->
  Qgt_bool (inject_Z c / inject_Z n) (1 # 2) = true <-> n < 2 * c.
Proof.
  intros Hn. assert (HnQ : (0 < inject_Z n)%Q).
  { change 0%Q with (inject_Z 0). now rewrite <- Zlt_Qlt. }
  unfold Qgt_bool. rewrite negb_true_iff. split.
  - intros H. destruct (Z_lt_ge_dec n (2 * c)) as [Hlt|Hge]; [assumption|].
    exfalso. assert (Hle : (inject_Z c / inject_Z n <= 1 # 2)%Q).
    { apply Qle_shift_div_r; [assumption|].
      unfold Qle, Qmult, inject_Z. cbn [Qnum Qden]. lia. }
    apply Qle_bool_iff in Hle. congruence.
  - intros H. destruct (Qle_bool (inject_Z c / inject_Z n) (1 # 2)) eqn:E;
      [|reflexivity].
    exfalso. apply Qle_bool_iff in E.
    assert (Hlt : ((1 # 2) < inject_Z c / inject_Z n)%Q).
    { apply Qlt_shift_div_l; [assumption|].
      unfold Qlt, Qmult, inject_Z. cbn [Qnum Qden]. lia. }
    lra.
Qed.

(** C7, as stated, fails: blank lines inside the text count against it. *)
Lemma C7_counterexample_blank_lines :
  moreThanHalfOfNonEmptyLines spacedLyrics = true
  /\ isLrcFormat spacedLyrics = false.
Proof. split; reflexivity. Qed.

(** C7, amended.  [isLrcFormat] accepts a text exactly when more than half
    of the lines of the trimmed text, blank ones included, match the
    line-timestamp pattern after trimming; the empty text is rejected. *)
Theorem C7_isLrcFormat_more_than_half_of_all_lines :
  forall text : jsstr,
    (isLrcFormat text = true
     <-> (length (countedLines text) < 2 * length (matchingLines text))%nat)
    /\ isLrcFormat [] = false.
Proof.
  intros text. split; [|reflexivity].
  destruct text as [|c text]; [split; [discriminate|vm_compute; lia]|].
  unfold isLrcFormat, matchingLines, countedLines. cbn [isEmpty].
  pose proof (split_lf_length (trim (c :: text))) as Hlen.
  set (lines := split_lf (trim (c :: text))) in *.
  set (count := length (filter (fun line => lrcLineRegex_test (trim line)) lines)).
  rewrite andb_true_iff, Nat.ltb_lt, ratio_above_half by lia.
  lia.
Qed.

(** ** Timestamp extraction *)

Lemma isDigit_digitChar d : isDecimalDigit d -> isDigit (digitChar d) = true.
Proof.
  unfold isDecimalDigit, isDigit, digitChar. intros H.
  apply andb_true_iff. split; apply N.leb_le; lia.
Qed.

Lemma digitChar_value d : Z.of_N (digitChar d) - 48 = Z.of_N d.
Proof. unfold digitChar. lia. Qed.

Lemma parseInt_two a b :
  isDecimalDigit a -> isDecimalDigit b ->
  parseInt [digitChar a; digitChar b] = 10 * Z.of_N a + Z.of_N b.
Proof.
  intros Ha Hb. unfold parseInt. cbn [parseInt_from].
  rewrite !isDigit_digitChar, !digitChar_value by assumption. lia.
Qed.

Lemma parseInt_three a b c :
  isDecimalDigit a -> isDecimalDigit b -> isDecimalDigit c ->
  parseInt [digitChar a; digitChar b; digitChar c]
  = 100 * Z.of_N a + 10 * Z.of_N b + Z.of_N c.
Proof.
  intros Ha Hb Hc. unfold parseInt. cbn [parseInt_from].
  rewrite !isDigit_digitChar, !digitChar_value by assumption. lia.
Qed.

Lemma matchStartTime_stamp s :
  wellFormed s -> matchStartTime (stampMatch s) = stampSeconds s.
Proof.
  destruct s as [m1 m2 s1 s2 sep f1 f2 f3].
  intros (Hm1 & Hm2 & Hs1 & Hs2 & _ & Hf1 & Hf2 & Hf3). simpl in *.
  unfold matchStartTime, stampSeconds, stampMatch, minutesOf, secondsOf, fracText.
  cbn [group1 group2 group3 minTens minUnits secTens secUnits fracFirst
       fracSecond fracThird].
  rewrite !parseInt_two by assumption.
  destruct f3 as [d|]; cbn [length Nat.eqb].
  - now rewrite parseInt_three.
  - now rewrite parseInt_two.
Qed.

Lemma isSep_fracSep c : c = DOT \/ c = COLON -> isSep c = true.
Proof. now intros [-> | ->]. Qed.

Lemma matchAt_stamp s rest :
  wellFormed s -> matchAt (stampText s ++ rest) = Some (stampMatch s, rest).
Proof.
  destruct s as [m1 m2 s1 s2 sep f1 f2 f3].
  intros (Hm1 & Hm2 & Hs1 & Hs2 & Hsep & Hf1 & Hf2 & Hf3). simpl in *.
  unfold stampText, stampMatch, fracText.
  cbn [minTens minUnits secTens secUnits fracSep fracFirst fracSecond fracThird].
  destruct f3 as [d|]; cbn [app matchAt].
  - rewrite !isDigit_digitChar, (isSep_fracSep _ Hsep) by assumption.
    reflexivity.
  - rewrite !isDigit_digitChar, (isSep_fracSep _ Hsep) by assumption.
    reflexivity.
Qed.

Lemma matchAt_noBracket c t : c <> LBRACKET -> matchAt (c :: t) = None.
Proof.
  intros Hc. apply N.eqb_neq in Hc. unfold matchAt.
  do 9 (destruct t as [|? t]; [reflexivity|]).
  now rewrite Hc.
Qed.

Lemma matchAll_from_skip p r :
  matchAll_from (length p) (p ++ r) = matchAll_from 0 r.
Proof.
  induction p as [|c p IH]; [reflexivity|]. simpl. exact IH.
Qed.

Lemma replace_from_skip p r :
  replace_from (length p) (p ++ r) = replace_from 0 r.
Proof.
  induction p as [|c p IH]; [reflexivity|]. simpl. exact IH.
Qed.

Lemma stampText_cons s :
  exists t, stampText s = LBRACKET :: t
            /\ length t = (matchLength (stampMatch s) - 1)%nat.
Proof.
  destruct s as [m1 m2 s1 s2 sep f1 f2 [d|]]; eexists; split; reflexivity.
Qed.

Lemma matchAll_stamp s rest :
  wellFormed s ->
  matchAll_from 0 (stampText s ++ rest) = stampMatch s :: matchAll_from 0 rest.
Proof.
  intros Hwf. pose proof (matchAt_stamp s rest Hwf) as Hm.
  destruct (stampText_cons s) as (t & Et & Hlen).
  rewrite Et in *. simpl app in *. cbn [matchAll_from]. rewrite Hm.
  now rewrite <- Hlen, matchAll_from_skip.
Qed.

Lemma replace_stamp s rest :
  wellFormed s ->
  replace_from 0 (stampText s ++ rest) = replace_from 0 rest.
Proof.
  intros Hwf. pose proof (matchAt_stamp s rest Hwf) as Hm.
  destruct (stampText_cons s) as (t & Et & Hlen).
  rewrite Et in *. simpl app in *. cbn [replace_from]. rewrite Hm.
  now rewrite <- Hlen, replace_from_skip.
Qed.

Lemma matchAll_noBracket pre r :
  noBracket pre -> matchAll_from 0 (pre ++ r) = matchAll_from 0 r.
Proof.
  induction 1 as [|c pre Hc _ IH]; [reflexivity|].
  simpl app. cbn [matchAll_from]. now rewrite (matchAt_noBracket _ _ Hc).
Qed.

Lemma replace_noBracket pre r :
  noBracket pre -> replace_from 0 (pre ++ r) = pre ++ replace_from 0 r.
Proof.
  induction 1 as [|c pre Hc _ IH]; [reflexivity|].
  simpl app. cbn [replace_from]. now rewrite (matchAt_noBracket _ _ Hc), IH.
Qed.

Lemma matchAll_stampedLine pieces rest :
  Forall (fun p => noBracket (fst p) /\ wellFormed (snd p)) pieces ->
  noBracket rest ->
  matchAll (stampedLine pieces rest) = map (fun p => stampMatch (snd p)) pieces.
Proof.
  intros Hp Hr. unfold matchAll, stampedLine.
  induction Hp as [|[pre s] pieces [Hpre Hwf] _ IH]; simpl.
  - rewrite <- (app_nil_r rest). now rewrite (matchAll_noBracket rest []).
  - rewrite <- !app_assoc, matchAll_noBracket, matchAll_stamp by assumption.
    now rewrite IH.
Qed.

Lemma replace_stampedLine pieces rest :
  Forall (fun p => noBracket (fst p) /\ wellFormed (snd p)) pieces ->
  noBracket rest ->
  replace_empty (stampedLine pieces rest) = strippedLine pieces rest.
Proof.
  intros Hp Hr. unfold replace_empty, stampedLine, strippedLine.
  induction Hp as [|[pre s] pieces [Hpre Hwf] _ IH]; simpl.
  - rewrite <- (app_nil_r rest) at 1.
    now rewrite (replace_noBracket rest []), app_nil_r.
  - rewrite <- !app_assoc, replace_noBracket, replace_stamp by assumption.
    now rewrite IH.
Qed.

(** The capture groups hold two, two, and two or three decimal digits, so
    [parseInt] never meets anything else. *)
Lemma matchAt_digits s m rest :
  matchAt s = Some (m, rest) ->
  forallb isDigit (group1 m ++ group2 m ++ group3 m) = true
  /\ length (group1 m) = 2%nat /\ length (group2 m) = 2%nat
  /\ (length (group3 m) = 2%nat \/ length (group3 m) = 3%nat).
Proof.
  unfold matchAt. do 10 (destruct s as [|? s]; [discriminate|]).
  match goal with |- context [if ?c then _ else None] =>
    destruct c eqn:E; [|discriminate] end.
  repeat (apply andb_true_iff in E; destruct E as [E ?]).
  match goal with |- context [if isDigit ?x then _ else _] =>
    destruct (isDigit x) eqn:Ex end.
  - destruct s as [|y s]; [discriminate|].
    destruct (y =? RBRACKET)%N; [|discriminate].
    intros [= <- <-]. simpl.
    repeat match goal with H : _ = true |- _ => rewrite H end.
    repeat split; auto.
  - match goal with |- context [if ?c then _ else None] =>
      destruct c; [|discriminate] end.
    intros [= <- <-]. simpl.
    repeat match goal with H : _ = true |- _ => rewrite H end.
    repeat split; auto.
Qed.

Lemma isDigit_inv c :
  isDigit c = true -> exists d, isDecimalDigit d /\ c = digitChar d.
Proof.
  unfold isDigit, isDecimalDigit, digitChar. intros H.
  apply andb_true_iff in H. destruct H as [H1 H2].
  apply N.leb_le in H1, H2. exists (c - 48)%N. split; lia.
Qed.

Lemma isSep_inv c : isSep c = true -> c = DOT \/ c = COLON.
Proof.
  unfold isSep. intros H. apply orb_true_iff in H.
  destruct H as [H|H]; apply N.eqb_eq in H; auto.
Qed.

(** A match at the head of [s] is the text of a well-formed timestamp. *)
Lemma matchAt_inv s m rest :
  matchAt s = Some (m, rest) ->
  exists st, wellFormed st /\ s = stampText st ++ rest /\ m = stampMatch st.
Proof.
  unfold matchAt.
  destruct s as [|b [|m1 [|m2 [|c [|s1 [|s2 [|p [|f1 [|f2 [|x s]]]]]]]]]];
    try discriminate.
  destruct (_ && _) eqn:E in |- *; [|discriminate].
  repeat (apply andb_true_iff in E; destruct E as [E ?]).
  apply N.eqb_eq in E.
  repeat match goal with
         | H : isDigit _ = true |- _ =>
             apply isDigit_inv in H; destruct H as (? & ? & ->)
         | H : isSep _ = true |- _ => apply isSep_inv in H
         | H : (_ =? _)%N = true |- _ => apply N.eqb_eq in H
         end.
  subst b c.
  destruct (isDigit x) eqn:Ex.
  - destruct s as [|y s]; [discriminate|].
    destruct (y =? RBRACKET)%N eqn:Ey; [|discriminate].
    apply N.eqb_eq in Ey. subst y.
    apply isDigit_inv in Ex. destruct Ex as (d & Hd & ->).
    intros [= <- <-].
    match goal with
    | |- context [mkMatch [digitChar ?a; digitChar ?b]
                          [digitChar ?c; digitChar ?e]
                          [digitChar ?f; digitChar ?g; _]] =>
        exists (mkStamp a b c e p f g (Some d))
    end.
    split; [|split; reflexivity].
    unfold wellFormed; simpl; tauto.
  - destruct (x =? RBRACKET)%N eqn:Ey; [|discriminate].
    apply N.eqb_eq in Ey. subst x.
    intros [= <- <-].
    match goal with
    | |- context [mkMatch [digitChar ?a; digitChar ?b]
                          [digitChar ?c; digitChar ?e]
                          [digitChar ?f; digitChar ?g]] =>
        exists (mkStamp a b c e p f g None)
    end.
    split; [|split; reflexivity].
    unfold wellFormed; simpl; tauto.
Qed.

(** Every match found in a line is an occurrence of a timestamp in it. *)
Lemma matchAll_from_inv s :
  forall k m,
    In m (matchAll_from k s) ->
    exists pre st post,
      wellFormed st /\ s = pre ++ stampText st ++ post /\ m = stampMatch st.
Proof.
  induction s as [|c s IH]; intros k m Hin; [contradiction|].
  assert (Hshift : In m (matchAll_from (match k with
                                        | O => match matchAt (c :: s) with
                                               | Some (m0, _) => matchLength m0 - 1
                                               | None => 0
                                               end
                                        | S k' => k'
                                        end) s)
                   -> exists pre st post,
                     wellFormed st /\ c :: s = pre ++ stampText st ++ post
                     /\ m = stampMatch st).
  { intros H. destruct (IH _ _ H) as (pre & st & post & Hwf & -> & ->).
    exists (c :: pre), st, post. split; [assumption|]. split; reflexivity. }
  cbn [matchAll_from] in Hin. destruct k as [|k]; [|now apply Hshift].
  destruct (matchAt (c :: s)) as [[m0 r]|] eqn:Em; [|now apply Hshift].
  destruct Hin as [<-|Hin]; [|now apply Hshift].
  destruct (matchAt_inv _ _ _ Em) as (st & Hwf & Hs & ->).
  exists [], st, r. split; [assumption|]. split; [assumption|reflexivity].
Qed.

(** C3. Each timestamp match on a line yields one timed line whose text is
    the line without its timestamps, trimmed.  Every match is an occurrence
    in the line of a timestamp [[MM:SS.ff]], [[MM:SS:ff]], [[MM:SS.fff]] or
    [[MM:SS:fff]], and its start time is [minutes*60 + seconds +
    fraction/100] for a two-digit fraction and [minutes*60 + seconds +
    fraction/1000] for a three-digit one.  Conversely a line written as
    bracket-free text interleaved with such timestamps yields exactly one
    timed line per timestamp, in order. *)
Theorem C3_stamped_line_entries :
  forall line : jsstr,
    lineEntries line
    = map (fun m => mkLine (trim (replace_empty line)) (matchStartTime m))
          (matchAll line)
    /\ (forall m, In m (matchAll line) ->
                  exists pre st post,
                    wellFormed st /\ line = pre ++ stampText st ++ post
                    /\ m = stampMatch st
                    /\ matchStartTime m = stampSeconds st)
    /\ (forall pieces rest,
           Forall (fun p => noBracket (fst p) /\ wellFormed (snd p)) pieces ->
           noBracket rest ->
           line = stampedLine pieces rest ->
           lineEntries line
           = map (fun p => mkLine (trim (strippedLine pieces rest))
                                  (stampSeconds (snd p)))
                 pieces).
Proof.
  intros line. split; [apply lineEntries_map|]. split.
  - intros m Hin. destruct (matchAll_from_inv _ _ _ Hin)
      as (pre & st & post & Hwf & Hl & Hm).
    exists pre, st, post. split; [assumption|]. split; [assumption|].
    split; [assumption|]. subst m. now apply matchStartTime_stamp.
  - intros pieces rest Hp Hr ->.
    rewrite lineEntries_map, matchAll_stampedLine, replace_stampedLine
      by assumption.
    rewrite map_map. apply map_ext_in. intros [pre s] Hin. simpl.
    rewrite Forall_forall in Hp. destruct (Hp _ Hin) as [_ Hwf].
    now rewrite matchStartTime_stamp.
Qed.

Lemma stampA_wellFormed : wellFormed stampA.
Proof. unfold wellFormed, isDecimalDigit. simpl. repeat split; auto; lia. Qed.

Lemma stampB_wellFormed : wellFormed stampB.
Proof. unfold wellFormed, isDecimalDigit. simpl. repeat split; auto; lia. Qed.

Lemma noBracket_text : noBracket (str " la ") /\ noBracket (str " di da  ").
Proof. split; repeat constructor; discriminate. Qed.

(** The line [[01:02:345] la [00:07.50] di da  ]. *)
Lemma C3_stamped_line_entries_witness :
  lineEntries (stampedLine [([], stampA); (str " la ", stampB)] (str " di da  "))
  = [mkLine (str "la  di da") (1 * 60 + 2 + 345 / 1000);
     mkLine (str "la  di da") (0 * 60 + 7 + 50 / 100)].
Proof.
  destruct (C3_stamped_line_entries
              (stampedLine [([], stampA); (str " la ", stampB)] (str " di da  ")))
    as (_ & _ & H).
  rewrite (H [([], stampA); (str " la ", stampB)] (str " di da  ")).
  - reflexivity.
  - constructor; [split; [constructor | exact stampA_wellFormed]|].
    constructor; [split; [apply noBracket_text | exact stampB_wellFormed]|].
    constructor.
  - apply noBracket_text.
  - reflexivity.
Defined.

(** The round trip of the specification. *)
Example parse_sunLyrics :
  forall a, parse sunLyrics a = [mkLine (str "A") 15.32; mkLine (str "B") 17.81].
Proof. intros a. rewrite parse_cases. reflexivity. Qed.

(** One timed line per match, on any line whatever. *)
Lemma lineEntries_per_match line :
  length (lineEntries line) = length (matchAll line)
  /\ Forall (fun e => text e = trim (replace_empty line)) (lineEntries line).
Proof.
  rewrite lineEntries_map. split; [apply length_map|].
  apply Forall_forall. intros e He. apply in_map_iff in He.
  now destruct He as (m & <- & _).
Qed.

(** ** Fallback and mixed input *)

Lemma parsedLrcLines_stamped_only lines :
  parsedLrcLines lines = parsedLrcLines (filter hasTimestamp lines).
Proof.
  unfold parsedLrcLines. induction lines as [|line lines IH]; [reflexivity|].
  simpl. destruct (hasTimestamp line) eqn:E; simpl.
  - now rewrite IH.
  - now rewrite (lineEntries_plain _ E).
Qed.

Lemma parsedLrcLines_length lines :
  length (parsedLrcLines lines) = length (flat_map matchAll lines).
Proof.
  unfold parsedLrcLines. induction lines as [|line lines IH]; [reflexivity|].
  simpl. rewrite !length_app, IH.
  now destruct (lineEntries_per_match line) as [-> _].
Qed.



(** C9. When some line carries a timestamp, the sequence is built from the
    stamped lines alone: it is the sorted extraction of the lines that
    carry one, a line without timestamp contributes no entry, and the
    sequence has as many lines as there are timestamps. *)
Theorem C9_plain_lines_dropped :
  forall (lyrics : jsstr) (a : Audio),
    isLrc (nonEmptyLines lyrics) = true ->
    parse lyrics a
    = sort (parsedLrcLines (filter hasTimestamp (nonEmptyLines lyrics)))
    /\ (forall line, In line (nonEmptyLines lyrics) ->
                     hasTimestamp line = false -> lineEntries line = [])
    /\ length (parse lyrics a)
       = length (flat_map matchAll (filter hasTimestamp (nonEmptyLines lyrics))).
Proof.
  intros lyrics a H. rewrite parse_cases, H. split; [|split].
  - now rewrite <- parsedLrcLines_stamped_only.
  - intros line _. apply lineEntries_plain.
  - rewrite (Permutation_length (sort_perm _)).
    now rewrite parsedLrcLines_stamped_only, parsedLrcLines_length.
Qed.

(** A plain line between two stamped ones leaves no trace. *)
Lemma C9_plain_lines_dropped_witness :
  parse (str "[00:17.81] B" ++ [LF] ++ str "chorus" ++ [LF] ++ str "[00:15.32] A")
        (loadedAudio 60)
  = sort (parsedLrcLines [str "[00:17.81] B"; str "[00:15.32] A"])
  /\ parse (str "[00:17.81] B" ++ [LF] ++ str "chorus" ++ [LF] ++ str "[00:15.32] A")
           (loadedAudio 60)
     = [mkLine (str "A") 15.32; mkLine (str "B") 17.81].
Proof.
  split.
  - apply (C9_plain_lines_dropped
             (str "[00:17.81] B" ++ [LF] ++ str "chorus" ++ [LF] ++ str "[00:15.32] A")
             (loadedAudio 60)).
    reflexivity.
  - reflexivity.
Defined.

Lemma C7_isLrcFormat_more_than_half_of_all_lines_witness :
  isLrcFormat sunLyrics = true /\ isLrcFormat plainLyrics = false.
Proof.
  split.
  - apply (C7_isLrcFormat_more_than_half_of_all_lines sunLyrics).
    vm_compute. lia.
  - destruct (isLrcFormat plainLyrics) eqn:E; [|reflexivity].
    apply (C7_isLrcFormat_more_than_half_of_all_lines plainLyrics) in E.
    vm_compute in E. lia.
Defined.

(** * Further properties of the timing code *)

(** ** The resolver, continued *)

Lemma newIndex_range lines off t :
  -1 <= newIndex lines off t < Z.of_nat (length lines).
Proof. apply scan_range. Qed.

Lemma started_in_range lines off t j :
  started lines off t j -> (j < length lines)%nat.
Proof.
  intros (l & Hl & _). apply nth_error_Some. congruence.
Qed.

(** A started line is never past the resolved index. *)
Lemma newIndex_ge_started lines off t j :
  started lines off t j -> Z.of_nat j <= newIndex lines off t.
Proof.
  intros Hj. pose proof (started_in_range _ _ _ _ Hj) as Hlt.
  unfold newIndex. pose proof (scan_range lines off t (length lines)) as Hr.
  destruct (Z.eq_dec (scan lines off t (length lines)) (-1)) as [E|E].
  - exfalso. exact (scan_none lines off t (length lines) (Nat.le_refl _) E j Hlt Hj).
  - assert (Hz : scan lines off t (length lines)
                 = Z.of_nat (Z.to_nat (scan lines off t (length lines))))
      by lia.
    destruct (scan_some lines off t (length lines) _ (Nat.le_refl _) Hz)
      as (_ & _ & Hmax).
    destruct (Nat.le_gt_cases j (Z.to_nat (scan lines off t (length lines))))
      as [Hle|Hgt]; [lia|].
    exfalso. apply (Hmax j); [lia | assumption].
Qed.

(** The resolved index, when not [-1], is the index of a started line. *)
Lemma newIndex_started lines off t i :
  newIndex lines off t = Z.of_nat i -> started lines off t i.
Proof.
  intros H. now destruct (scan_some lines off t (length lines) i (Nat.le_refl _) H).
Qed.

(** X1.  The index [animate] computes is [-1] or a valid index of the sequence,
    and [getMarqueeDuration] called with it never throws. *)
Theorem newIndex_valid_and_marquee_returns :
  forall (lines : list TimedLine) (off t : Q) (audio : option Audio),
    -1 <= newIndex lines off t < Z.of_nat (length lines)
    /\ exists v, getMarqueeDuration lines (newIndex lines off t) audio = Return v.
Proof.
  intros lines off t audio.
  pose proof (newIndex_range lines off t) as Hr. split; [assumption|].
  unfold getMarqueeDuration.
  destruct ((newIndex lines off t <? 0) || (length lines =? 0)%nat) eqn:G;
    [eexists; reflexivity|].
  apply orb_false_iff in G. destruct G as [G _]. apply Z.ltb_ge in G.
  destruct (at_index_within lines (newIndex lines off t) ltac:(lia))
    as (cur & ->).
  destruct (at_index lines (newIndex lines off t + 1)); [eexists; reflexivity|].
  destruct audio as [a|]; [|eexists; reflexivity].
  destruct (truthy (duration a)); eexists; reflexivity.
Qed.

(** X2.  [getMarqueeDuration] throws exactly when the sequence is not empty, the
    index is past its end and the audio element reports a duration that is
    neither [NaN] nor [0]. *)
Theorem getMarqueeDuration_throws_iff :
  forall (lines : list TimedLine) (idx : Z) (audio : option Audio),
    getMarqueeDuration lines idx audio = Throw
    <-> lines <> [] /\ Z.of_nat (length lines) <= idx
        /\ exists a, audio = Some a /\ truthy (duration a) = true.
Proof.
  intros lines idx audio. unfold getMarqueeDuration. split.
  - destruct ((idx <? 0) || (length lines =? 0)%nat) eqn:G; [discriminate|].
    apply orb_false_iff in G. destruct G as [G1 G2].
    apply Z.ltb_ge in G1. apply Nat.eqb_neq in G2.
    destruct (at_index lines (idx + 1)) as [next|] eqn:En.
    + apply at_index_Some in En.
      destruct (at_index_within lines idx ltac:(lia)) as (cur & ->).
      discriminate.
    + destruct audio as [a|]; [|discriminate].
      destruct (truthy (duration a)) eqn:Et; [|discriminate].
      destruct (at_index lines idx) as [cur|] eqn:Ec; [discriminate|].
      intros _. split; [now destruct lines|]. split; [|now exists a].
      destruct (Z_lt_ge_dec idx (Z.of_nat (length lines))) as [Hlt|Hge]; [|lia].
      destruct (at_index_within lines idx ltac:(lia)) as (x & Hx). congruence.
  - intros (Hne & Hidx & a & -> & Ht).
    assert (G : (idx <? 0) || (length lines =? 0)%nat = false).
    { apply orb_false_iff. split; [apply Z.ltb_ge; lia|].
      apply Nat.eqb_neq. now destruct lines. }
    rewrite G, Ht, !at_index_beyond by lia. reflexivity.
Qed.

Lemma getMarqueeDuration_throws_iff_witness :
  getMarqueeDuration threeLines 3 (Some (loadedAudio 12)) = Throw.
Proof.
  apply (getMarqueeDuration_throws_iff threeLines 3 (Some (loadedAudio 12))).
  split; [discriminate|]. split; [simpl; lia|].
  exists (loadedAudio 12). split; reflexivity.
Defined.

(** X3.  The resolved index never moves back when the clock moves forward, and
    never moves forward when the offset grows. *)
Theorem newIndex_monotone :
  forall (lines : list TimedLine) (off1 off2 t1 t2 : Q),
    (off2 <= off1)%Q -> (t1 <= t2)%Q ->
    newIndex lines off1 t1 <= newIndex lines off2 t2.
Proof.
  intros lines off1 off2 t1 t2 Ho Ht.
  pose proof (newIndex_range lines off1 t1) as Hr1.
  pose proof (newIndex_range lines off2 t2) as Hr2.
  destruct (Z.eq_dec (newIndex lines off1 t1) (-1)) as [E|E]; [lia|].
  assert (Hz : newIndex lines off1 t1 = Z.of_nat (Z.to_nat (newIndex lines off1 t1)))
    by lia.
  apply newIndex_started in Hz. destruct Hz as (l & Hl & Hq).
  rewrite <- (newIndex_ge_started lines off2 t2 (Z.to_nat (newIndex lines off1 t1)));
    [lia|].
  exists l. split; [assumption|]. lra.
Qed.

Lemma newIndex_monotone_witness :
  newIndex threeLines 0 4 <= newIndex threeLines (-0.3) 6.
Proof.
  apply (newIndex_monotone threeLines 0 (-0.3) 4 6); vm_compute; discriminate.
Defined.

(** X4.  On a sequence with non-decreasing start times the resolved index splits
    it: a line has started exactly when it is at or before that index. *)
Theorem newIndex_splits_sorted :
  forall (lines : list TimedLine) (off t : Q) (j : nat),
    nonDecreasing lines -> (j < length lines)%nat ->
    (started lines off t j <-> Z.of_nat j <= newIndex lines off t).
Proof.
  intros lines off t j Hs Hj. split; [apply newIndex_ge_started|].
  intros Hle. pose proof (newIndex_range lines off t) as Hr.
  assert (Hz : newIndex lines off t = Z.of_nat (Z.to_nat (newIndex lines off t)))
    by lia.
  apply newIndex_started in Hz. destruct Hz as (li & Hi & Hq).
  destruct (nth_error lines j) as [lj|] eqn:Ej;
    [|apply nth_error_None in Ej; lia].
  exists lj. split; [exact Ej|].
  assert (H : le_start lj li).
  { apply (nonDecreasing_nth lines j (Z.to_nat (newIndex lines off t)));
      [assumption | lia | assumption | assumption]. }
  unfold le_start in H. lra.
Qed.

Lemma newIndex_splits_sorted_witness :
  started threeLines (-0.3) 6 0 <-> 0 <= newIndex threeLines (-0.3) 6.
Proof.
  apply (newIndex_splits_sorted threeLines (-0.3) 6 0);
    [exact threeLines_nonDecreasing | simpl; lia].
Defined.

(** ** The parsing effect, continued *)

Lemma mapi_from_text (g : Z -> Q) (l : list jsstr) i :
  map text (mapi_from i (fun text index => mkLine text (g index)) l) = l.
Proof.
  revert i. induction l as [|x l IH]; intros i; simpl; [reflexivity|].
  now rewrite IH.
Qed.

Lemma placeholder_text l : map text (placeholder l) = l.
Proof.
  unfold placeholder. rewrite map_map. simpl. apply map_id.
Qed.

Lemma calculateTimings_text lines a : map text (calculateTimings lines a) = lines.
Proof.
  unfold calculateTimings.
  destruct (duration a) as [| |D]; try apply placeholder_text.
  destruct (Qle_bool D 0); [apply placeholder_text|].
  apply (mapi_from_text (fun index => inject_Z index * _)%Q).
Qed.

(** X5.  Lyrics without a timestamp are shown line for line: the texts of the
    sequence are the non-empty lines of the input, in order and untrimmed,
    before and after the metadata listener fires. *)
Theorem plain_lyrics_keep_their_lines :
  forall (lyrics : jsstr) (a a' : Audio),
    isLrc (nonEmptyLines lyrics) = false ->
    map text (parse lyrics a) = nonEmptyLines lyrics
    /\ map text (timedLyrics (onLoadedMetadata a' (mount lyrics a)))
       = nonEmptyLines lyrics.
Proof.
  intros lyrics a a' H. assert (Hp : map text (parse lyrics a) = nonEmptyLines lyrics).
  { rewrite parse_cases, H. destruct (1 <=? readyState a)%N;
      [apply calculateTimings_text | apply placeholder_text]. }
  split; [assumption|].
  unfold onLoadedMetadata.
  destruct (metadataListener (mount lyrics a)) as [ls|] eqn:E; [|exact Hp].
  simpl. rewrite calculateTimings_text.
  rewrite mount_cases, H in E.
  destruct (1 <=? readyState a)%N; [discriminate|].
  destruct (length (nonEmptyLines lyrics) =? 0)%nat; [discriminate|].
  simpl in E. congruence.
Qed.

Lemma plain_lyrics_keep_their_lines_witness :
  map text (parse plainLyrics emptyAudio) = nonEmptyLines plainLyrics
  /\ map text (timedLyrics (onLoadedMetadata (loadedAudio 10)
                                             (mount plainLyrics emptyAudio)))
     = nonEmptyLines plainLyrics.
Proof.
  apply (plain_lyrics_keep_their_lines plainLyrics emptyAudio (loadedAudio 10)).
  reflexivity.
Defined.

(** X6.  Once timings are final no listener is left: with timestamps in the
    lyrics, or with the metadata already loaded, mounting registers no
    metadata listener, and a later metadata event changes nothing. *)
Theorem final_timings_ignore_metadata_event :
  forall (lyrics : jsstr) (a a' : Audio),
    isLrc (nonEmptyLines lyrics) = true \/ (1 <= readyState a)%N ->
    metadataListener (mount lyrics a) = None
    /\ onLoadedMetadata a' (mount lyrics a) = mount lyrics a.
Proof.
  intros lyrics a a' H.
  assert (Hn : metadataListener (mount lyrics a) = None).
  { rewrite mount_cases.
    destruct (isLrc (nonEmptyLines lyrics)) eqn:E; [reflexivity|].
    destruct H as [H|H]; [discriminate|].
    apply N.leb_le in H. now rewrite H. }
  split; [assumption|]. unfold onLoadedMetadata. now rewrite Hn.
Qed.

Lemma final_timings_ignore_metadata_event_witness :
  metadataListener (mount sunLyrics emptyAudio) = None
  /\ onLoadedMetadata (loadedAudio 60) (mount sunLyrics emptyAudio)
     = mount sunLyrics emptyAudio.
Proof.
  apply (final_timings_ignore_metadata_event sunLyrics emptyAudio (loadedAudio 60)).
  left. reflexivity.
Defined.

Lemma insert_first x l :
  Forall (le_start x) l -> insert x l = x :: l.
Proof.
  intros H. destruct l as [|y l]; [reflexivity|]. simpl.
  inversion H as [|? ? Hxy _]; subst.
  apply compareFn_le in Hxy. now rewrite Hxy.
Qed.

Lemma sort_nonDecreasing_id l : nonDecreasing l -> sort l = l.
Proof.
  unfold nonDecreasing. induction 1 as [|x l Hs IH Hall]; [reflexivity|].
  simpl. rewrite IH. now apply insert_first.
Qed.

(** X7.  Timestamped lyrics whose timestamps already run in non-decreasing order
    come out in file order. *)
Theorem ordered_lrc_keeps_file_order :
  forall (lyrics : jsstr) (a : Audio),
    isLrc (nonEmptyLines lyrics) = true ->
    nonDecreasing (parsedLrcLines (nonEmptyLines lyrics)) ->
    parse lyrics a = parsedLrcLines (nonEmptyLines lyrics).
Proof.
  intros lyrics a H Hs. rewrite parse_cases, H. now apply sort_nonDecreasing_id.
Qed.

Lemma ordered_lrc_keeps_file_order_witness :
  parse sunLyrics (loadedAudio 60) = parsedLrcLines (nonEmptyLines sunLyrics).
Proof.
  apply (ordered_lrc_keeps_file_order sunLyrics (loadedAudio 60));
    [reflexivity|].
  unfold nonDecreasing, le_start. vm_compute.
  repeat constructor; discriminate.
Defined.

(** *** Bounds on the start times *)

Lemma digit_bounds d : isDecimalDigit d -> 0 <= Z.of_N d <= 9.
Proof. unfold isDecimalDigit. lia. Qed.

Lemma inject_Z_between z lo hi :
  lo <= z <= hi -> (inject_Z lo <= inject_Z z <= inject_Z hi)%Q.
Proof. intros [H1 H2]. split; rewrite <- Zle_Qle; assumption. Qed.

Lemma stampSeconds_bounds st :
  wellFormed st -> (0 <= stampSeconds st < 6040)%Q.
Proof.
  destruct st as [m1 m2 s1 s2 sep f1 f2 f3].
  intros (Hm1 & Hm2 & Hs1 & Hs2 & _ & Hf1 & Hf2 & Hf3). simpl in *.
  apply digit_bounds in Hm1, Hm2, Hs1, Hs2, Hf1, Hf2.
  unfold stampSeconds, minutesOf, secondsOf.
  cbn [minTens minUnits secTens secUnits fracFirst fracSecond fracThird].
  pose proof (inject_Z_between (10 * Z.of_N m1 + Z.of_N m2) 0 99 ltac:(lia)) as Hm.
  pose proof (inject_Z_between (10 * Z.of_N s1 + Z.of_N s2) 0 99 ltac:(lia)) as Hs.
  set (m := inject_Z (10 * Z.of_N m1 + Z.of_N m2)) in *.
  set (s := inject_Z (10 * Z.of_N s1 + Z.of_N s2)) in *.
  change (inject_Z 0) with 0%Q in *. change (inject_Z 99) with 99%Q in *.
  destruct f3 as [d|].
  - apply digit_bounds in Hf3.
    pose proof (inject_Z_between
                  (100 * Z.of_N f1 + 10 * Z.of_N f2 + Z.of_N d) 0 999 ltac:(lia))
      as Hf.
    set (f := inject_Z (100 * Z.of_N f1 + 10 * Z.of_N f2 + Z.of_N d)) in *.
    change (inject_Z 0) with 0%Q in *. change (inject_Z 999) with 999%Q in *.
    clearbody m s f. unfold Qdiv. change (/ 1000)%Q with (1 # 1000)%Q.
    split; lra.
  - pose proof (inject_Z_between (10 * Z.of_N f1 + Z.of_N f2) 0 99 ltac:(lia))
      as Hf.
    set (f := inject_Z (10 * Z.of_N f1 + Z.of_N f2)) in *.
    change (inject_Z 0) with 0%Q in *. change (inject_Z 99) with 99%Q in *.
    clearbody m s f. unfold Qdiv. change (/ 100)%Q with (1 # 100)%Q.
    split; lra.
Qed.

Lemma parsedLrcLines_In e lines :
  In e (parsedLrcLines lines) ->
  exists line m, In line lines /\ In m (matchAll line)
                 /\ e = mkLine (trim (replace_empty line)) (matchStartTime m).
Proof.
  unfold parsedLrcLines. intros H. apply in_flat_map in H.
  destruct H as (line & Hl & He). rewrite lineEntries_map in He.
  apply in_map_iff in He. destruct He as (m & <- & Hm).
  now exists line, m.
Qed.

Lemma evenDivision_bounds (lines : list jsstr) (D : Q) e :
  (0 < D)%Q ->
  In e (mapi_from 0
          (fun text index =>
             mkLine text (inject_Z index * (D / inject_Z (Z.of_nat (length lines)))))
          lines) ->
  (0 <= startTime e < D)%Q.
Proof.
  intros HD Hin. apply In_nth_error in Hin. destruct Hin as (n & Hn).
  rewrite mapi_from_nth in Hn.
  destruct (nth_error lines n) as [t|] eqn:En; [|discriminate].
  assert (Hlt : (n < length lines)%nat) by (apply nth_error_Some; congruence).
  simpl in Hn. injection Hn as <-. simpl.
  assert (HN : (0 < inject_Z (Z.of_nat (length lines)))%Q).
  { change 0%Q with (inject_Z 0). rewrite <- Zlt_Qlt. lia. }
  assert (Hn0 : (0 <= inject_Z (Z.of_nat n))%Q).
  { change 0%Q with (inject_Z 0). rewrite <- Zle_Qle. lia. }
  assert (HnN : (inject_Z (Z.of_nat n) < inject_Z (Z.of_nat (length lines)))%Q).
  { rewrite <- Zlt_Qlt. lia. }
  set (x := inject_Z (Z.of_nat n)) in *.
  set (N := inject_Z (Z.of_nat (length lines))) in *.
  assert (Hc : (0 < D / N)%Q) by (apply Qlt_shift_div_l; lra).
  split.
  - apply Qmult_le_0_compat; lra.
  - assert (E : (D == N * (D / N))%Q) by (field; lra).
    rewrite E at 2. apply Qmult_lt_compat_r; assumption.
Qed.

(** X8.  Start times are never negative.  Those read from timestamps stay below
    6040 seconds (the fields are not range-checked, so [[99:99.999]] is
    accepted); those of an even division stay below the duration. *)
Theorem parse_startTime_bounds :
  forall (lyrics : jsstr) (a : Audio) (e : TimedLine),
    In e (parse lyrics a) ->
    (0 <= startTime e)%Q
    /\ (isLrc (nonEmptyLines lyrics) = true -> (startTime e < 6040)%Q)
    /\ (forall D, isLrc (nonEmptyLines lyrics) = false ->
                  duration a = Fin D -> (0 < D)%Q -> (startTime e < D)%Q).
Proof.
  intros lyrics a e. rewrite parse_cases.
  destruct (isLrc (nonEmptyLines lyrics)) eqn:E.
  - intros Hin. apply (Permutation_in _ (sort_perm _)) in Hin.
    apply parsedLrcLines_In in Hin. destruct Hin as (line & m & _ & Hm & ->).
    destruct (matchAll_from_inv _ _ _ Hm) as (pre & st & post & Hwf & _ & ->).
    simpl. rewrite (matchStartTime_stamp _ Hwf).
    pose proof (stampSeconds_bounds st Hwf) as [H0 H1].
    split; [assumption|]. split; [intros _; assumption | discriminate].
  - intros Hin.
    assert (Hz : In e (placeholder (nonEmptyLines lyrics)) ->
                 (startTime e == 0)%Q).
    { unfold placeholder. intros H. apply in_map_iff in H.
      destruct H as (t & <- & _). reflexivity. }
    destruct (1 <=? readyState a)%N.
    + unfold calculateTimings in Hin.
      destruct (duration a) as [| |D] eqn:Hd.
      * apply Hz in Hin. split; [lra|]. split; [discriminate|].
        intros D _ HD. discriminate.
      * apply Hz in Hin. split; [lra|]. split; [discriminate|].
        intros D _ HD. discriminate.
      * destruct (Qle_bool D 0) eqn:Hle.
        -- apply Hz in Hin. apply Qle_bool_iff in Hle.
           split; [lra|]. split; [discriminate|].
           intros D' _ [= <-] HD. lra.
        -- assert (HD : (0 < D)%Q).
           { destruct (Qlt_le_dec 0 D) as [H|H]; [assumption|].
             apply Qle_bool_iff in H. congruence. }
           pose proof (evenDivision_bounds _ D e HD Hin) as [H0 H1].
           split; [assumption|]. split; [discriminate|].
           now intros D' _ [= <-] _.
    + apply Hz in Hin. split; [lra|]. split; [discriminate|].
      intros D _ _ HD. lra.
Qed.

Lemma parse_startTime_bounds_witness :
  (0 <= 17.81)%Q /\ (17.81 < 6040)%Q.
Proof.
  destruct (parse_startTime_bounds sunLyrics (loadedAudio 60)
              (mkLine (str "B") 17.81)) as (H0 & H1 & _).
  - right. left. reflexivity.
  - split; [exact H0 | exact (H1 eq_refl)].
Defined.

(** *** The marquee over an even division *)




(** ** Strings *)

Lemma trimStart_idem s : trimStart (trimStart s) = trimStart s.
Proof.
  induction s as [|c s IH]; [reflexivity|]. simpl.
  destruct (isWhiteSpace c) eqn:E; [assumption|]. simpl. now rewrite E.
Qed.

Lemma trimStart_decomp s :
  exists p, s = p ++ trimStart s /\ forallb isWhiteSpace p = true.
Proof.
  induction s as [|c s (p & Hp & Hw)]; [now exists []|]. simpl.
  destruct (isWhiteSpace c) eqn:E.
  - exists (c :: p). simpl. rewrite E, Hw. split; [now f_equal|reflexivity].
  - now exists [].
Qed.

Lemma trimStart_app_nonws x c :
  isWhiteSpace c = false -> trimStart (x ++ [c]) = trimStart x ++ [c].
Proof.
  intros Hc. induction x as [|d x IH]; simpl; [now rewrite Hc|].
  now destruct (isWhiteSpace d).
Qed.

Lemma trimEnd_cons_nonws c u :
  isWhiteSpace c = false -> trimEnd (c :: u) = c :: trimEnd u.
Proof.
  intros Hc. unfold trimEnd. simpl rev.
  now rewrite trimStart_app_nonws, rev_app_distr.
Qed.

Lemma trimEnd_idem u : trimEnd (trimEnd u) = trimEnd u.
Proof.
  unfold trimEnd. now rewrite rev_involutive, trimStart_idem.
Qed.

Lemma trimEnd_decomp s :
  exists q, s = trimEnd s ++ q /\ forallb isWhiteSpace q = true.
Proof.
  destruct (trimStart_decomp (rev s)) as (p & Hp & Hw).
  exists (rev p). split.
  - unfold trimEnd. rewrite <- rev_app_distr, <- Hp. now rewrite rev_involutive.
  - rewrite forallb_forall in *. intros x Hx. apply Hw. now apply in_rev.
Qed.

Lemma trim_idem s : trim (trim s) = trim s.
Proof.
  unfold trim. destruct (trimStart s) as [|c u] eqn:E; [reflexivity|].
  assert (Hc : isWhiteSpace c = false).
  { destruct (isWhiteSpace c) eqn:Hc; [|reflexivity].
    pose proof (trimStart_idem s) as Hi. rewrite E in Hi. simpl in Hi.
    rewrite Hc in Hi.
    destruct (trimStart_decomp u) as (p & Hp & _).
    apply (f_equal (@length _)) in Hi, Hp. simpl in Hi.
    rewrite length_app in Hp. lia. }
  rewrite (trimEnd_cons_nonws _ _ Hc). simpl. rewrite Hc.
  rewrite <- (trimEnd_cons_nonws _ _ Hc). apply trimEnd_idem.
Qed.

Lemma trim_decomp s :
  exists p q, s = p ++ trim s ++ q
              /\ forallb isWhiteSpace p = true /\ forallb isWhiteSpace q = true.
Proof.
  destruct (trimStart_decomp s) as (p & Hp & Hwp).
  destruct (trimEnd_decomp (trimStart s)) as (q & Hq & Hwq).
  exists p, q. unfold trim. now rewrite <- Hq.
Qed.

Lemma trim_empty_whitespace s :
  trim s = [] -> forallb isWhiteSpace s = true.
Proof.
  intros H. destruct (trim_decomp s) as (p & q & Hs & Hp & Hq).
  rewrite H in Hs. rewrite Hs. simpl. rewrite forallb_app. now rewrite Hp, Hq.
Qed.

Lemma split_lf_cons c s :
  split_lf (c :: s)
  = if (c =? LF)%N then [] :: split_lf s
    else (c :: hd [] (split_lf s)) :: tl (split_lf s).
Proof.
  simpl. destruct (c =? LF)%N; [reflexivity|].
  pose proof (split_lf_length s). now destruct (split_lf s).
Qed.

Lemma split_lf_hd_prefix s : exists q, s = hd [] (split_lf s) ++ q.
Proof.
  induction s as [|c s (q & Hq)]; [now exists []|].
  rewrite split_lf_cons. destruct (c =? LF)%N; simpl.
  - now exists (c :: s).
  - exists q. now rewrite Hq at 1.
Qed.

Lemma In_tl {A} (x : A) l : In x (tl l) -> In x l.
Proof. destruct l; simpl; auto. Qed.

(** A line of [split_lf s] is a stretch of [s]. *)
Lemma split_lf_In s l :
  In l (split_lf s) -> exists p q, s = p ++ l ++ q.
Proof.
  revert l. induction s as [|c s IH]; intros l.
  - simpl. intros [<-|[]]. now exists [], [].
  - rewrite split_lf_cons. destruct (c =? LF)%N.
    + intros [<-|Hin]; [now exists [], (c :: s)|].
      destruct (IH _ Hin) as (p & q & ->). now exists (c :: p), q.
    + intros [<-|Hin].
      * destruct (split_lf_hd_prefix s) as (q & Hq).
        exists [], q. simpl. now rewrite Hq at 1.
      * destruct (IH _ (In_tl _ _ Hin)) as (p & q & ->). now exists (c :: p), q.
Qed.

Lemma split_lf_no_LF s l : In l (split_lf s) -> ~ In LF l.
Proof.
  revert l. induction s as [|c s IH]; intros l.
  - simpl. intros [<-|[]]. auto.
  - rewrite split_lf_cons. destruct (c =? LF)%N eqn:E.
    + intros [<-|Hin]; [auto | now apply IH].
    + intros [<-|Hin]; [|apply IH; now apply In_tl].
      intros [Hc|Hin].
      * apply N.eqb_neq in E. congruence.
      * pose proof (split_lf_length s). destruct (split_lf s) as [|l0 ls] eqn:El;
          [simpl in *; lia|].
        apply (IH l0); [now left | assumption].
Qed.

Lemma split_lf_prefix_noLF u b :
  ~ In LF u ->
  split_lf (u ++ b) = (u ++ hd [] (split_lf b)) :: tl (split_lf b).
Proof.
  intros Hu. induction u as [|c u IH].
  - simpl. pose proof (split_lf_length b).
    destruct (split_lf b); [simpl in *; lia | reflexivity].
  - assert (Hc : (c =? LF)%N = false).
    { apply N.eqb_neq. intros ->. apply Hu. now left. }
    simpl app. rewrite split_lf_cons, Hc, IH; [reflexivity|].
    intros H. apply Hu. now right.
Qed.

(** A newline-free stretch of [s] lies within one line of [split_lf s]. *)
Lemma split_lf_covers u :
  ~ In LF u ->
  forall a b, exists l p q, In l (split_lf (a ++ u ++ b)) /\ l = p ++ u ++ q.
Proof.
  intros Hu a b. induction a as [|c a (l & p & q & Hin & Hl)].
  - simpl. rewrite (split_lf_prefix_noLF _ _ Hu).
    exists (u ++ hd [] (split_lf b)), [], (hd [] (split_lf b)).
    split; [now left | reflexivity].
  - simpl app. rewrite split_lf_cons. destruct (c =? LF)%N.
    + exists l, p, q. split; [now right | assumption].
    + pose proof (split_lf_length (a ++ u ++ b)) as Hlen.
      destruct (split_lf (a ++ u ++ b)) as [|l0 ls]; [simpl in Hlen; lia|].
      simpl. destruct Hin as [<-|Hin].
      * exists (c :: l0), (c :: p), q. split; [now left | now rewrite Hl].
      * exists l, p, q. split; [now right | assumption].
Qed.

(** ** Recognition of timestamps *)

Lemma matchAll_from_found pre s :
  (exists m r, matchAt s = Some (m, r)) ->
  matchAll_from 0 (pre ++ s) <> [].
Proof.
  intros (m & r & Hm). induction pre as [|c pre IH]; simpl app.
  - destruct s as [|c s]; [discriminate|]. cbn [matchAll_from].
    rewrite Hm. discriminate.
  - cbn [matchAll_from]. destruct (matchAt (c :: pre ++ s)) as [[m' r']|];
      [discriminate | assumption].
Qed.

Lemma stamp_anywhere_is_recognised_aux pre post st :
  wellFormed st -> hasTimestamp (pre ++ stampText st ++ post) = true.
Proof.
  intros Hwf. unfold hasTimestamp, matchAll.
  pose proof (matchAll_from_found pre (stampText st ++ post)) as H.
  destruct (matchAll_from 0 (pre ++ stampText st ++ post)); [|reflexivity].
  exfalso. apply H; [|reflexivity].
  exists (stampMatch st), post. now apply matchAt_stamp.
Qed.

(** X10.  A line that contains a well-formed timestamp anywhere is recognised as
    timestamped, whatever surrounds the timestamp. *)
Theorem stamp_anywhere_is_recognised :
  forall (pre post : jsstr) (st : Stamp),
    wellFormed st -> hasTimestamp (pre ++ stampText st ++ post) = true.
Proof. intros. now apply stamp_anywhere_is_recognised_aux. Qed.

Lemma stamp_anywhere_is_recognised_witness :
  hasTimestamp (str "la [la] " ++ stampText stampB ++ str " [x") = true.
Proof.
  apply (stamp_anywhere_is_recognised (str "la [la] ") (str " [x") stampB).
  exact stampB_wellFormed.
Defined.

Lemma stampText_no_LF st : wellFormed st -> ~ In LF (stampText st).
Proof.
  destruct st as [m1 m2 s1 s2 sep f1 f2 f3].
  intros (Hm1 & Hm2 & Hs1 & Hs2 & Hsep & Hf1 & Hf2 & Hf3).
  unfold isDecimalDigit in *. simpl in *.
  unfold stampText, fracText, digitChar, LF, LBRACKET, RBRACKET, COLON, DOT in *.
  cbn [minTens minUnits secTens secUnits fracSep fracFirst fracSecond fracThird
       app In].
  destruct f3 as [d|]; cbn [app In];
    intros H; repeat (destruct H as [H|H]; [destruct Hsep; subst; lia|]);
    exact H.
Qed.

Lemma stampText_not_blank st p q :
  forallb isWhiteSpace (p ++ stampText st ++ q) = false.
Proof.
  rewrite !forallb_app. destruct st. simpl. now rewrite andb_false_r.
Qed.

Lemma accepted_text_is_parsed_as_lrc_aux text a :
  isLrcFormat text = true ->
  isLrc (nonEmptyLines text) = true
  /\ parse text a = sort (parsedLrcLines (nonEmptyLines text))
  /\ parse text a <> [].
Proof.
  intros Hacc.
  assert (Hlrc : isLrc (nonEmptyLines text) = true).
  { unfold isLrcFormat in Hacc.
    destruct (isEmpty text); [discriminate|].
    apply andb_true_iff in Hacc. destruct Hacc as [_ Hratio].
    destruct (filter (fun line => lrcLineRegex_test (trim line))
                     (split_lf (trim text))) as [|line ls] eqn:Ef.
    - exfalso. simpl in Hratio. unfold Qgt_bool in Hratio.
      apply negb_true_iff in Hratio.
      assert (H : Qle_bool (inject_Z 0 / inject_Z (Z.of_nat (length (split_lf (trim text))))) (1 # 2) = true).
      { apply Qle_bool_iff. unfold Qdiv. rewrite Qmult_0_l. discriminate. }
      simpl in H. congruence.
    - assert (Hin : In line (filter (fun line => lrcLineRegex_test (trim line))
                                    (split_lf (trim text))))
        by (rewrite Ef; now left).
      apply filter_In in Hin. destruct Hin as [Hin Htest].
      unfold lrcLineRegex_test in Htest.
      destruct (matchAt (trim line)) as [[m r]|] eqn:Em; [|discriminate].
      destruct (matchAt_inv _ _ _ Em) as (st & Hwf & Hline & _).
      destruct (trim_decomp line) as (p1 & q1 & Hl1 & _ & _).
      destruct (split_lf_In _ _ Hin) as (p2 & q2 & Ht2).
      destruct (trim_decomp text) as (p3 & q3 & Ht3 & _ & _).
      assert (Htext : text = (p3 ++ p2 ++ p1) ++ stampText st
                             ++ (r ++ q1 ++ q2 ++ q3)).
      { rewrite Ht3 at 1. rewrite Ht2. rewrite Hl1 at 1. rewrite Hline.
        now rewrite <- !app_assoc. }
      destruct (split_lf_covers _ (stampText_no_LF _ Hwf)
                                (p3 ++ p2 ++ p1) (r ++ q1 ++ q2 ++ q3))
        as (l & p & q & Hl & El).
      rewrite <- Htext in Hl.
      unfold isLrc. apply existsb_exists. exists l. split.
      + unfold nonEmptyLines. apply filter_In. split; [assumption|].
        destruct (trim l) eqn:Etl; [|reflexivity].
        apply trim_empty_whitespace in Etl.
        rewrite El, stampText_not_blank in Etl. discriminate.
      + rewrite El. now apply stamp_anywhere_is_recognised_aux. }
  split; [assumption|]. rewrite parse_cases, Hlrc. split; [reflexivity|].
  pose proof (isLrc_parsed _ Hlrc) as Hpos. apply Nat.ltb_lt in Hpos.
  intros E. apply (f_equal (@length _)) in E.
  rewrite (Permutation_length (sort_perm _)) in E. simpl in E. lia.
Qed.

(** X11.  A text accepted by [isLrcFormat] is always parsed in the timestamped
    branch: it is shown with the timings it carries, and the sequence is not
    empty. *)
Theorem accepted_text_is_parsed_as_lrc :
  forall (text : jsstr) (a : Audio),
    isLrcFormat text = true ->
    isLrc (nonEmptyLines text) = true
    /\ parse text a = sort (parsedLrcLines (nonEmptyLines text))
    /\ parse text a <> [].
Proof. intros. now apply accepted_text_is_parsed_as_lrc_aux. Qed.

Lemma accepted_text_is_parsed_as_lrc_witness :
  isLrc (nonEmptyLines sunLyrics) = true
  /\ parse sunLyrics emptyAudio = sort (parsedLrcLines (nonEmptyLines sunLyrics))
  /\ parse sunLyrics emptyAudio <> [].
Proof.
  apply (accepted_text_is_parsed_as_lrc sunLyrics emptyAudio). reflexivity.
Defined.

(** X12.  In the timestamped branch every text is trimmed: trimming it again
    changes nothing.  (Plain lyrics keep their surrounding blanks.) *)
Theorem lrc_texts_are_trimmed :
  forall (lyrics : jsstr) (a : Audio) (e : TimedLine),
    isLrc (nonEmptyLines lyrics) = true ->
    In e (parse lyrics a) -> trim (text e) = text e.
Proof.
  intros lyrics a e H Hin. rewrite parse_cases, H in Hin.
  apply (Permutation_in _ (sort_perm _)) in Hin.
  apply parsedLrcLines_In in Hin. destruct Hin as (line & m & _ & _ & ->).
  simpl. apply trim_idem.
Qed.

Lemma lrc_texts_are_trimmed_witness :
  trim (text (mkLine (str "B") 17.81)) = text (mkLine (str "B") 17.81).
Proof.
  apply (lrc_texts_are_trimmed sunLyrics (loadedAudio 60) (mkLine (str "B") 17.81));
    [reflexivity|]. right. left. reflexivity.
Defined.

(** ** [findLyrics] *)

Section FindLyricsProperties.

Import FindLyrics.

Lemma lrcText_Some text t : lrcText text = Some t -> text = Some t /\ isLrcFormat t = true.
Proof.
  unfold lrcText. destruct text as [u|]; [|discriminate].
  destruct (isLrcFormat u) eqn:E; [|discriminate]. now intros [= <-].
Qed.

Lemma tryBlock_resolved ai t :
  snd (tryBlock ai) = Resolved t ->
  isLrcFormat t = true
  /\ (ai primaryModel = Responded (Some t)
      \/ ai fallbackModel = Responded (Some t)).
Proof.
  unfold tryBlock. destruct (ai primaryModel) as [t1|m1]; [|discriminate].
  destruct (lrcText t1) as [u|] eqn:E1; simpl.
  - intros [= <-]. apply lrcText_Some in E1. destruct E1 as [-> H]. auto.
  - destruct (ai fallbackModel) as [t2|m2]; [|discriminate].
    destruct (lrcText t2) as [u|] eqn:E2; [|discriminate].
    intros [= <-]. apply lrcText_Some in E2. destruct E2 as [-> H]. auto.
Qed.

Lemma findLyrics_resolved apiKey ai t :
  snd (findLyrics apiKey ai) = Resolved t -> snd (tryBlock ai) = Resolved t.
Proof.
  unfold findLyrics, catchBlock. destruct apiKey; [|discriminate]. simpl.
  destruct (snd (tryBlock ai)) eqn:E; [now rewrite E | discriminate].
Qed.

(** X13.  Whatever the models answer, a text [findLyrics] resolves with is one of
    their answers, passes [isLrcFormat], and is therefore shown by the
    karaoke screen with the timings it carries. *)
Theorem findLyrics_resolves_with_lrc_only :
  forall (apiKey : bool) (ai : Model -> Response) (t : jsstr) (a : Audio),
    snd (findLyrics apiKey ai) = Resolved t ->
    isLrcFormat t = true
    /\ (ai primaryModel = Responded (Some t)
        \/ ai fallbackModel = Responded (Some t))
    /\ parse t a = sort (parsedLrcLines (nonEmptyLines t))
    /\ parse t a <> [].
Proof.
  intros apiKey ai t a H. apply findLyrics_resolved, tryBlock_resolved in H.
  destruct H as [Hacc Hsrc]. split; [assumption|]. split; [assumption|].
  now destruct (accepted_text_is_parsed_as_lrc_aux t a Hacc) as (_ & H1 & H2).
Qed.

Lemma catchBlock_fst r : fst (catchBlock r) = fst r.
Proof. unfold catchBlock. now destruct (snd r). Qed.

Lemma tryBlock_calls ai :
  fst (tryBlock ai)
  = match ai primaryModel with
    | Responded text =>
        match lrcText text with
        | Some _ => [primaryModel]
        | None => [primaryModel; fallbackModel]
        end
    | Failed _ => [primaryModel]
    end.
Proof.
  unfold tryBlock. destruct (ai primaryModel) as [t1|m1]; [|reflexivity].
  now destruct (lrcText t1).
Qed.

(** X14.  The fallback model is asked exactly when the key is set and the primary
    model answered with a text that fails [isLrcFormat], not when the primary
    call itself failed; when the primary answer passes, it is the result
    whatever the fallback would say; without a key no model is asked. *)
Theorem findLyrics_fallback_policy :
  forall (apiKey : bool) (ai : Model -> Response),
    (In fallbackModel (fst (findLyrics apiKey ai))
     <-> apiKey = true
         /\ exists text, ai primaryModel = Responded text /\ lrcText text = None)
    /\ (forall t, apiKey = true -> ai primaryModel = Responded (Some t) ->
                  isLrcFormat t = true ->
                  findLyrics apiKey ai = ([primaryModel], Resolved t))
    /\ (apiKey = false -> fst (findLyrics apiKey ai) = []).
Proof.
  intros apiKey ai. split; [|split].
  - unfold findLyrics. destruct apiKey; simpl.
    + rewrite catchBlock_fst, tryBlock_calls.
      destruct (ai primaryModel) as [t1|m1].
      * destruct (lrcText t1) as [u|] eqn:E1.
        -- split; [intros [H|[]]; discriminate|].
           intros (_ & text & [= <-] & H). congruence.
        -- split; [intros _; split; [reflexivity | now exists t1]|].
           intros _. right. now left.
      * split; [intros [H|[]]; discriminate|].
        intros (_ & text & H & _). discriminate.
    + split; [intros [] | intros [H _]; discriminate].
  - intros t -> Hp Hacc. unfold findLyrics, catchBlock, tryBlock. simpl.
    rewrite Hp. simpl. now rewrite Hacc.
  - intros ->. reflexivity.
Qed.

Lemma findLyrics_fallback_policy_witness :
  In fallbackModel (fst (findLyrics true aiSecondTry))
  /\ findLyrics true aiFirstTry = ([primaryModel], Resolved sunLyrics)
  /\ fst (findLyrics false aiFirstTry) = [].
Proof.
  split; [|split].
  - apply (findLyrics_fallback_policy true aiSecondTry).
    split; [reflexivity|]. exists (Some plainLyrics). split; reflexivity.
  - destruct (findLyrics_fallback_policy true aiFirstTry) as (_ & H & _).
    apply (H sunLyrics); reflexivity.
  - destruct (findLyrics_fallback_policy false aiFirstTry) as (_ & _ & H).
    apply H. reflexivity.
Defined.

(** X15.  The caller only ever sees two errors: the missing key, raised before
    the [try], or the one message of the [catch].  The format error built
    inside the [try] and the error of a failed call never get out. *)
Theorem findLyrics_rejects_with_two_messages :
  forall (apiKey : bool) (ai : Model -> Response) (e : ErrorMessage),
    snd (findLyrics apiKey ai) = Rejected e ->
    (apiKey = false /\ e = ApiKeyNotConfigured)
    \/ (apiKey = true /\ e = FailedToFindLyrics).
Proof.
  intros apiKey ai e. unfold findLyrics, catchBlock.
  destruct apiKey; simpl.
  - destruct (snd (tryBlock ai)) eqn:E; simpl.
    + rewrite E. discriminate.
    + intros [= <-]. now right.
  - intros [= <-]. now left.
Qed.

Lemma findLyrics_rejects_with_two_messages_witness :
  (true = false /\ FailedToFindLyrics = ApiKeyNotConfigured)
  \/ (true = true /\ FailedToFindLyrics = FailedToFindLyrics).
Proof.
  apply (findLyrics_rejects_with_two_messages true aiNeverLrc FailedToFindLyrics).
  reflexivity.
Defined.

Lemma findLyrics_resolves_with_lrc_only_witness :
  isLrcFormat sunLyrics = true
  /\ (aiSecondTry primaryModel = Responded (Some sunLyrics)
      \/ aiSecondTry fallbackModel = Responded (Some sunLyrics))
  /\ parse sunLyrics emptyAudio = sort (parsedLrcLines (nonEmptyLines sunLyrics))
  /\ parse sunLyrics emptyAudio <> [].
Proof.
  apply (findLyrics_resolves_with_lrc_only true aiSecondTry sunLyrics emptyAudio).
  reflexivity.
Defined.

End FindLyricsProperties.

(** ** The setup screen *)

Section SetupScreenProperties.

Import FindLyrics SetupScreen.

Lemma lastIndexOf_from_app c x y i acc :
  lastIndexOf_from c (x ++ y) i acc
  = lastIndexOf_from c y (i + Z.of_nat (length x)) (lastIndexOf_from c x i acc).
Proof.
  revert i acc. induction x as [|d x IH]; intros i acc; simpl length.
  - simpl. now rewrite Z.add_0_r.
  - cbn [app lastIndexOf_from]. rewrite IH. f_equal. lia.
Qed.

Lemma lastIndexOf_from_absent c s i acc :
  ~ In c s -> lastIndexOf_from c s i acc = acc.
Proof.
  revert i acc. induction s as [|d s IH]; intros i acc H; [reflexivity|].
  cbn [lastIndexOf_from]. destruct (d =? c)%N eqn:E.
  - apply N.eqb_eq in E. exfalso. apply H. now left.
  - apply IH. intros Hin. apply H. now right.
Qed.

Lemma lastIndexOf_last c x ext :
  ~ In c ext -> lastIndexOf c (x ++ c :: ext) = Z.of_nat (length x).
Proof.
  intros H. unfold lastIndexOf. rewrite lastIndexOf_from_app.
  cbn [lastIndexOf_from]. rewrite N.eqb_refl.
  now rewrite lastIndexOf_from_absent.
Qed.

Lemma slice0_prefix x y : slice0 (x ++ y) (Z.of_nat (length x)) = x.
Proof.
  unfold slice0. destruct (Z.of_nat (length x) <? 0) eqn:E;
    [apply Z.ltb_lt in E; lia|].
  rewrite length_app, Z.min_l by lia. rewrite Nat2Z.id.
  rewrite firstn_app, Nat.sub_diag, firstn_all. simpl. apply app_nil_r.
Qed.

Lemma slice0_minus_one s : slice0 s (-1) = removelast s.
Proof.
  unfold slice0. simpl. rewrite removelast_firstn_len. f_equal. lia.
Qed.

Lemma split_absent c u : ~ In c u -> split c u = [u].
Proof.
  induction u as [|d u IH]; intros H; [reflexivity|]. simpl.
  destruct (d =? c)%N eqn:E.
  - apply N.eqb_eq in E. exfalso. apply H. now left.
  - rewrite IH; [reflexivity|]. intros Hin. apply H. now right.
Qed.

Lemma split_app c u v : ~ In c u -> split c (u ++ c :: v) = u :: split c v.
Proof.
  induction u as [|d u IH]; intros H; simpl.
  - now rewrite N.eqb_refl.
  - destruct (d =? c)%N eqn:E.
    + apply N.eqb_eq in E. exfalso. apply H. now left.
    + rewrite IH; [reflexivity|]. intros Hin. apply H. now right.
Qed.

Lemma In_removelast {A} (x : A) l : In x (removelast l) -> In x l.
Proof.
  induction l as [|y l IH]; [auto|]. simpl.
  destruct l as [|z l]; [intros []|].
  intros [H|H]; [now left | right; now apply IH].
Qed.

(** X16.  A file named [artist-title.ext], where the hyphen is the first of the
    name and the dot the last, fills in the trimmed artist and a title made
    of the trimmed hyphen-separated pieces of [title]; the title is simply
    trimmed when it has no hyphen.  Lyrics and error are cleared. *)
Theorem parseFileName_artist_and_title :
  forall (artist title ext : jsstr) (f : Form),
    ~ In HYPHEN artist -> ~ In DOT ext ->
    parseFileName (artist ++ HYPHEN :: title ++ DOT :: ext) f
    = mkForm [] [] (trim (join HYPHEN (map trim (split HYPHEN title))))
             (trim artist) (isLoadingLyrics f)
    /\ (~ In HYPHEN title ->
        parseFileName (artist ++ HYPHEN :: title ++ DOT :: ext) f
        = mkForm [] [] (trim title) (trim artist) (isLoadingLyrics f)).
Proof.
  intros artist title ext f Ha He.
  assert (E : parseFileName (artist ++ HYPHEN :: title ++ DOT :: ext) f
              = mkForm [] [] (trim (join HYPHEN (map trim (split HYPHEN title))))
                       (trim artist) (isLoadingLyrics f)).
  { unfold parseFileName.
    replace (artist ++ HYPHEN :: title ++ DOT :: ext)
      with ((artist ++ HYPHEN :: title) ++ DOT :: ext)
      by (now rewrite <- app_assoc).
    rewrite (lastIndexOf_last _ _ _ He), slice0_prefix, (split_app _ _ _ Ha).
    cbn [map length tl hd].
    destruct (split HYPHEN title) as [|p ps] eqn:Es; [|reflexivity].
    now destruct title as [|d title]; simpl in Es;
      [|destruct (d =? HYPHEN)%N; [|destruct (split HYPHEN title)]]. }
  split; [exact E|].
  intros Ht. rewrite E, (split_absent _ _ Ht). simpl. now rewrite trim_idem.
Qed.

Lemma parseFileName_artist_and_title_witness :
  parseFileName (str "Daft Punk " ++ HYPHEN :: str " One More Time" ++ DOT :: str "mp3")
                (mkForm (str "old") [] [] [] false)
  = mkForm [] [] (str "One More Time") (str "Daft Punk") false.
Proof.
  destruct (parseFileName_artist_and_title
              (str "Daft Punk ") (str " One More Time") (str "mp3")
              (mkForm (str "old") [] [] [] false)) as [_ H].
  - vm_compute. intuition discriminate.
  - vm_compute. intuition discriminate.
  - rewrite H; [reflexivity|]. vm_compute. intuition discriminate.
Defined.

(** X17.  A file name without any dot loses its last character: [lastIndexOf] is
    [-1] and [slice(0, -1)] drops one unit.  Without a hyphen the shortened
    name becomes the title, untrimmed, and the artist is empty. *)
Theorem parseFileName_without_dot_drops_last_unit :
  forall (name : jsstr) (f : Form),
    ~ In DOT name -> ~ In HYPHEN name ->
    parseFileName name f = mkForm [] [] (removelast name) [] (isLoadingLyrics f).
Proof.
  intros name f Hd Hh. unfold parseFileName, lastIndexOf.
  rewrite (lastIndexOf_from_absent _ _ _ _ Hd), slice0_minus_one.
  rewrite split_absent; [reflexivity|].
  intros H. apply Hh. now apply In_removelast.
Qed.

Lemma parseFileName_without_dot_drops_last_unit_witness :
  parseFileName (str "Yesterday") (mkForm [] [] [] [] false)
  = mkForm [] [] (str "Yesterda") [] false.
Proof.
  rewrite (parseFileName_without_dot_drops_last_unit (str "Yesterday")).
  - reflexivity.
  - vm_compute. intuition discriminate.
  - vm_compute. intuition discriminate.
Defined.

(** X18.  A file name with an extension and no hyphen becomes the title as it is,
    blanks included, with an empty artist. *)
Theorem parseFileName_without_hyphen :
  forall (name ext : jsstr) (f : Form),
    ~ In HYPHEN name -> ~ In DOT ext ->
    parseFileName (name ++ DOT :: ext) f
    = mkForm [] [] name [] (isLoadingLyrics f).
Proof.
  intros name ext f Hh Hd. unfold parseFileName.
  rewrite (lastIndexOf_last _ _ _ Hd), slice0_prefix, (split_absent _ _ Hh).
  reflexivity.
Qed.

Lemma parseFileName_without_hyphen_witness :
  parseFileName (str " Yesterday" ++ DOT :: str "mp3") (mkForm [] [] [] [] true)
  = mkForm [] [] (str " Yesterday") [] true.
Proof.
  apply (parseFileName_without_hyphen (str " Yesterday") (str "mp3"));
    vm_compute; intuition discriminate.
Defined.

(** X19.  With a song title entered, the lyric search always ends with the
    loading flag off, and either installs lyrics that pass [isLrcFormat],
    which the karaoke screen shows with the timings they carry, and clears
    the error, or keeps the lyrics and shows one of the two messages that
    [findLyrics] lets out.  Title and artist are never touched. *)
Theorem handleFindLyrics_outcome :
  forall (apiKey : bool) (ai : Model -> Response) (f : Form),
    songTitle f <> [] ->
    isLoadingLyrics (handleFindLyrics apiKey ai f) = false
    /\ songTitle (handleFindLyrics apiKey ai f) = songTitle f
    /\ songArtist (handleFindLyrics apiKey ai f) = songArtist f
    /\ ((isLrcFormat (lyrics (handleFindLyrics apiKey ai f)) = true
         /\ error (handleFindLyrics apiKey ai f) = []
         /\ forall a, parse (lyrics (handleFindLyrics apiKey ai f)) a <> [])
        \/ (lyrics (handleFindLyrics apiKey ai f) = lyrics f
            /\ (error (handleFindLyrics apiKey ai f) = message ApiKeyNotConfigured
                \/ error (handleFindLyrics apiKey ai f)
                   = message FailedToFindLyrics))).
Proof.
  intros apiKey ai f Ht. unfold handleFindLyrics.
  destruct (songTitle f) as [|c t] eqn:Et; [congruence|]. simpl isEmpty. cbv iota.
  destruct (snd (findLyrics apiKey ai)) as [t'|e] eqn:E; simpl.
  - split; [reflexivity|]. split; [reflexivity|]. split; [reflexivity|].
    left. apply findLyrics_resolved, tryBlock_resolved in E.
    destruct E as [Hacc _]. split; [assumption|]. split; [reflexivity|].
    intros a. now destruct (accepted_text_is_parsed_as_lrc_aux t' a Hacc)
      as (_ & _ & H).
  - split; [reflexivity|]. split; [reflexivity|]. split; [reflexivity|].
    right. split; [reflexivity|].
    assert (He : e = ApiKeyNotConfigured \/ e = FailedToFindLyrics).
    { revert E. unfold findLyrics, catchBlock. destruct apiKey; simpl.
      - destruct (snd (tryBlock ai)) eqn:E'; simpl;
          [rewrite E'; discriminate|].
        intros [= <-]. now right.
      - intros [= <-]. now left. }
    destruct He as [-> | ->]; [left | right]; reflexivity.
Qed.

Lemma handleFindLyrics_outcome_witness :
  isLoadingLyrics
    (handleFindLyrics true aiSecondTry (mkForm [] [] (str "Sun") [] false))
  = false
  /\ lyrics (handleFindLyrics true aiSecondTry (mkForm [] [] (str "Sun") [] false))
     = sunLyrics.
Proof.
  split; [|reflexivity].
  apply (handleFindLyrics_outcome true aiSecondTry
           (mkForm [] [] (str "Sun") [] false)).
  discriminate.
Defined.

End SetupScreenProperties.

(** ** The life of the synchronisation loop *)

Section SyncLoopProperties.

Import SyncLoop.

(** With at most the referenced frame pending, cancelling empties the
    queue and touches nothing else. *)
Lemma cancelFrame_empties s :
  oneFrameAtMost s ->
  cancelFrame s
  = mkScreen (state s) (playbackState s) (frameRef s) [] (nextHandle s)
             (listening s).
Proof.
  destruct s as [st p r pd n l]. unfold oneFrameAtMost, cancelFrame. simpl.
  intros [->|(h & cl & -> & -> & Hh)].
  - destruct r as [h|]; [|reflexivity]. now destruct (h =? 0)%N.
  - apply N.eqb_neq in Hh. rewrite Hh. simpl. now rewrite N.eqb_refl.
Qed.

Lemma listenerFor_Some st cl :
  listenerFor st = Some cl ->
  cl = mkClosure (timedLyrics st) (timingOffset st) /\ timedLyrics st <> [].
Proof.
  unfold listenerFor. destruct (timedLyrics st); [discriminate|].
  intros [= <-]. split; [reflexivity | discriminate].
Qed.

Lemma listenerFor_length st :
  (if (length (timedLyrics st) =? 0)%nat then None
   else Some (mkClosure (timedLyrics st) (timingOffset st)))
  = listenerFor st.
Proof. unfold listenerFor. now destruct (timedLyrics st). Qed.

Lemma wellKept_quiet st p r n :
  n <> 0%N -> wellKept (mkScreen st p r [] n (listenerFor st)).
Proof.
  intros Hn. unfold wellKept, oneFrameAtMost. simpl.
  split; [assumption|]. split; [now left|]. split; [intros ? ? []|reflexivity].
Qed.

Lemma wellKept_requested st p r n cl :
  n <> 0%N -> listenerFor st = Some cl ->
  wellKept (requestFrame cl (mkScreen st p r [] n (listenerFor st))).
Proof.
  intros Hn Hl. unfold wellKept, oneFrameAtMost, requestFrame. simpl.
  split; [lia|]. split; [right; now exists n, cl|].
  split; [intros h c [[= <- <-]|[]]; assumption | reflexivity].
Qed.

Lemma wellKept_no_listener s :
  wellKept s -> listening s = None -> pending s = [].
Proof.
  intros (_ & _ & Hp & _) Hl. destruct (pending s) as [|[h cl] l]; [reflexivity|].
  specialize (Hp h cl (or_introl eq_refl)). congruence.
Qed.

Lemma wellKept_pending s h cl :
  wellKept s -> In (h, cl) (pending s) ->
  pending s = [(h, cl)] /\ frameRef s = Some h /\ h <> 0%N
  /\ listening s = Some cl /\ cl = currentClosure s
  /\ timedLyrics (state s) <> [].
Proof.
  intros (Hn & H1 & Hp & Hl) Hin. pose proof (Hp _ _ Hin) as Hlis.
  rewrite Hl in Hlis. destruct (listenerFor_Some _ _ Hlis) as [Hc Hne].
  destruct H1 as [H1|(h' & cl' & H1 & Hr & Hh)]; [now rewrite H1 in Hin|].
  rewrite H1 in Hin. destruct Hin as [[= -> ->]|[]].
  rewrite Hl. unfold currentClosure.
  split; [assumption|]. split; [assumption|]. split; [assumption|].
  split; [assumption|]. split; assumption.
Qed.

(** What a new run of the effect leaves. *)
Lemma rerunEffect_result s st :
  wellKept s ->
  rerunEffect (withState st s)
  = mkScreen st (playbackState s) (frameRef s) [] (nextHandle s) (listenerFor st).
Proof.
  intros Hk. pose proof Hk as (Hn & H1 & Hp & Hl).
  unfold rerunEffect. cbn [withState listening state].
  destruct (listening s) eqn:El.
  - rewrite cancelFrame_empties by exact H1.
    unfold withListening, withState.
    cbn [state playbackState frameRef nextHandle listening].
    rewrite <- listenerFor_length.
    now destruct (length (timedLyrics st) =? 0)%nat.
  - pose proof (wellKept_no_listener s Hk El) as Hp0.
    unfold withListening, withState.
    cbn [state playbackState frameRef nextHandle listening pending].
    rewrite Hp0, <- listenerFor_length.
    now destruct (length (timedLyrics st) =? 0)%nat.
Qed.

Lemma callbackOf_single h h' cl cl' :
  callbackOf h [(h', cl')] = Some cl -> h' = h /\ cl' = cl.
Proof.
  simpl. destruct (h' =? h)%N eqn:E; [|discriminate].
  apply N.eqb_eq in E. now intros [= <-].
Qed.

Lemma step_wellKept e s : wellKept s -> wellKept (step e s).
Proof.
  intros Hk. pose proof Hk as (Hn & H1 & Hp & Hl).
  destruct e as [|t| |h t|v|lines]; unfold step; cbv zeta.
  - (* Play *)
    change (listening (withPlayback playing s)) with (listening s).
    destruct (listening s) as [cl|] eqn:El.
    + rewrite cancelFrame_empties by exact H1.
      cbn [withPlayback state playbackState frameRef nextHandle listening].
      rewrite El, Hl. apply wellKept_requested; [assumption | congruence].
    + exact Hk.
  - (* Pause *)
    assert (E : (if Qeq_bool t 0 then withPlayback idle s else s)
                = withPlayback (if Qeq_bool t 0 then idle else playbackState s) s).
    { destruct (Qeq_bool t 0); [reflexivity | now destruct s]. }
    rewrite E. change (listening (withPlayback _ s)) with (listening s).
    destruct (listening s) eqn:El; [|exact Hk].
    rewrite cancelFrame_empties by exact H1.
    cbn [withPlayback state playbackState frameRef nextHandle listening].
    rewrite El, Hl. now apply wellKept_quiet.
  - (* Ended *)
    change (listening (withPlayback ended s)) with (listening s).
    destruct (listening s) as [cl|] eqn:El; [|exact Hk].
    rewrite cancelFrame_empties by exact H1.
    cbn [withPlayback withState state playbackState frameRef nextHandle listening].
    rewrite El, Hl. apply (wellKept_quiet (setCurrentLineIndex (-1) (state s))).
    assumption.
  - (* Frame *)
    destruct (callbackOf h (pending s)) as [cl|] eqn:Ec; [|assumption].
    destruct H1 as [H1|(h' & cl' & H1 & Hr & Hh)]; [now rewrite H1 in Ec|].
    rewrite H1 in Ec. apply callbackOf_single in Ec. destruct Ec as [-> ->].
    assert (Hlis : listening s = Some cl)
      by (apply (Hp h cl); rewrite H1; now left).
    unfold runAnimate. rewrite H1.
    cbn [withState filter fst negb state playbackState frameRef nextHandle
         listening]. rewrite N.eqb_refl. cbn [negb].
    rewrite Hl.
    apply (wellKept_requested
             (setCurrentLineIndex
                (newIndex (capturedLyrics cl) (capturedOffset cl) t) (state s)));
      [assumption|].
    change (listenerFor (state s) = Some cl). congruence.
  - (* OffsetChanged *)
    destruct (Qeq_bool v (timingOffset (state s))); [assumption|].
    rewrite rerunEffect_result by assumption. now apply wellKept_quiet.
  - (* TimedLyricsChanged *)
    rewrite rerunEffect_result by assumption. now apply wellKept_quiet.
Qed.

Lemma initialScreen_wellKept : wellKept initialScreen.
Proof. apply (wellKept_quiet initialState idle None 1). discriminate. Qed.

Lemma run_wellKept evs s : wellKept s -> wellKept (run evs s).
Proof.
  revert s. induction evs as [|e evs IH]; intros s H; [assumption|].
  simpl. apply IH. now apply step_wellKept.
Qed.

(** X20.  Whatever the sequence of transport events, frames and changes of offset
    or lines, at most one animation frame is pending; it is the one whose
    handle is in [animationFrameRef], and its callback has captured the
    present lines and offset: two loops never run side by side and no
    stale [animate] is ever scheduled. *)
Theorem sync_loop_has_one_current_frame_at_most :
  forall (events : list Event),
    (length (pending (run events initialScreen)) <= 1)%nat
    /\ forall h cl,
        In (h, cl) (pending (run events initialScreen)) ->
        frameRef (run events initialScreen) = Some h
        /\ cl = currentClosure (run events initialScreen).
Proof.
  intros events.
  pose proof (run_wellKept events _ initialScreen_wellKept) as Hk.
  split.
  - destruct Hk as (_ & [H|(h & cl & H & _)] & _); rewrite H; simpl; lia.
  - intros h cl Hin.
    now destruct (wellKept_pending _ _ _ Hk Hin) as (_ & Hr & _ & _ & Hc & _).
Qed.

Lemma sync_loop_has_one_current_frame_at_most_witness :
  frameRef startedScreen = Some 1%N
  /\ mkClosure threeLines (-0.3) = currentClosure startedScreen.
Proof.
  destruct (sync_loop_has_one_current_frame_at_most
              [TimedLyricsChanged threeLines; Play]) as [_ H].
  apply (H 1%N (mkClosure threeLines (-0.3))). left. reflexivity.
Defined.

(** X21.  A pause or the end of the track leaves no frame pending, and the end of
    the track puts the index back to [-1] when lines are shown. *)
Theorem pause_and_end_stop_the_loop :
  forall (events : list Event) (t : Q),
    pending (step (Pause t) (run events initialScreen)) = []
    /\ pending (step Ended (run events initialScreen)) = []
    /\ (timedLyrics (state (run events initialScreen)) <> [] ->
        currentLineIndex (state (step Ended (run events initialScreen))) = -1).
Proof.
  intros events t.
  pose proof (run_wellKept events _ initialScreen_wellKept) as Hk.
  set (s := run events initialScreen) in *.
  pose proof Hk as (Hn & H1 & Hp & Hl).
  split; [|split]; unfold step; cbv zeta.
  - assert (E : (if Qeq_bool t 0 then withPlayback idle s else s)
                = withPlayback (if Qeq_bool t 0 then idle else playbackState s) s).
    { destruct (Qeq_bool t 0); [reflexivity | now destruct s]. }
    rewrite E. change (listening (withPlayback _ s)) with (listening s).
    destruct (listening s) eqn:El.
    + now rewrite cancelFrame_empties by exact H1.
    + cbn [withPlayback pending]. now apply wellKept_no_listener.
  - change (listening (withPlayback ended s)) with (listening s).
    destruct (listening s) eqn:El.
    + now rewrite cancelFrame_empties by exact H1.
    + cbn [withPlayback pending]. now apply wellKept_no_listener.
  - intros Hne. change (listening (withPlayback ended s)) with (listening s).
    rewrite Hl. unfold listenerFor.
    destruct (timedLyrics (state s)); [congruence|]. reflexivity.
Qed.

Lemma pause_and_end_stop_the_loop_witness :
  pending (step (Pause 3) startedScreen) = []
  /\ pending (step Ended startedScreen) = []
  /\ currentLineIndex (state (step Ended startedScreen)) = -1.
Proof.
  destruct (pause_and_end_stop_the_loop [TimedLyricsChanged threeLines; Play] 3)
    as (H1 & H2 & H3).
  split; [exact H1|]. split; [exact H2|]. apply H3. discriminate.
Defined.

(** X22.  A change of the offset or of the lines cancels the pending frame and
    requests none, also while the track is playing: the playback state is
    not touched, frames that arrive afterwards do nothing, and the index
    is not updated again before the next play event. *)
Theorem effect_rerun_halts_the_loop :
  forall (events : list Event) (v : Q) (lines : list TimedLine) (h : N) (t : Q),
    (Qeq_bool v (timingOffset (state (run events initialScreen))) = false ->
     pending (step (OffsetChanged v) (run events initialScreen)) = []
     /\ playbackState (step (OffsetChanged v) (run events initialScreen))
        = playbackState (run events initialScreen)
     /\ step (Frame h t) (step (OffsetChanged v) (run events initialScreen))
        = step (OffsetChanged v) (run events initialScreen))
    /\ pending (step (TimedLyricsChanged lines) (run events initialScreen)) = []
    /\ playbackState (step (TimedLyricsChanged lines) (run events initialScreen))
       = playbackState (run events initialScreen)
    /\ step (Frame h t) (step (TimedLyricsChanged lines) (run events initialScreen))
       = step (TimedLyricsChanged lines) (run events initialScreen).
Proof.
  intros events v lines h t.
  pose proof (run_wellKept events _ initialScreen_wellKept) as Hk.
  set (s := run events initialScreen) in *.
  split.
  - intros Hv.
    assert (E : step (OffsetChanged v) s
                = mkScreen (setTimingOffset v (state s)) (playbackState s)
                           (frameRef s) [] (nextHandle s)
                           (listenerFor (setTimingOffset v (state s)))).
    { unfold step. rewrite Hv. now apply rerunEffect_result. }
    rewrite E. split; [reflexivity|]. split; reflexivity.
  - assert (E : step (TimedLyricsChanged lines) s
                = mkScreen (setTimedLyrics lines (state s)) (playbackState s)
                           (frameRef s) [] (nextHandle s)
                           (listenerFor (setTimedLyrics lines (state s)))).
    { unfold step. now apply rerunEffect_result. }
    rewrite E. split; [reflexivity|]. split; reflexivity.
Qed.

Lemma effect_rerun_halts_the_loop_witness :
  playbackState (step (OffsetChanged 0.5) startedScreen) = playing
  /\ pending (step (OffsetChanged 0.5) startedScreen) = []
  /\ step (Frame 1 6) (step (OffsetChanged 0.5) startedScreen)
     = step (OffsetChanged 0.5) startedScreen.
Proof.
  destruct (effect_rerun_halts_the_loop
              [TimedLyricsChanged threeLines; Play] 0.5 [] 1%N 6)
    as ((H1 & H2 & H3) & _); [reflexivity|].
  unfold startedScreen.
  split; [rewrite H2; reflexivity|]. split; [exact H1 | exact H3].
Defined.

(** X23.  With lines shown, a play event leaves exactly one frame pending, for
    the present lines and offset, however many play events came before;
    when that frame runs, the index becomes the one resolved from the
    present lines and offset at the clock position, and exactly one new
    frame is pending. *)
Theorem play_and_frames_keep_one_loop :
  forall (events : list Event) (t : Q),
    timedLyrics (state (run events initialScreen)) <> [] ->
    (exists h,
        pending (step Play (run events initialScreen))
        = [(h, currentClosure (run events initialScreen))])
    /\ playbackState (step Play (run events initialScreen)) = playing
    /\ forall h cl,
        In (h, cl) (pending (run events initialScreen)) ->
        currentLineIndex (state (step (Frame h t) (run events initialScreen)))
        = newIndex (timedLyrics (state (run events initialScreen)))
                   (timingOffset (state (run events initialScreen))) t
        /\ exists h',
            pending (step (Frame h t) (run events initialScreen))
            = [(h', currentClosure (run events initialScreen))].
Proof.
  intros events t Hne.
  pose proof (run_wellKept events _ initialScreen_wellKept) as Hk.
  set (s := run events initialScreen) in *.
  pose proof Hk as (Hn & H1 & Hp & Hl).
  assert (Hlis : listening s = Some (currentClosure s)).
  { rewrite Hl. unfold listenerFor, currentClosure.
    destruct (timedLyrics (state s)); [congruence | reflexivity]. }
  split; [|split].
  - unfold step. cbv zeta.
    change (listening (withPlayback playing s)) with (listening s).
    rewrite Hlis, cancelFrame_empties by exact H1.
    exists (nextHandle s). reflexivity.
  - unfold step. cbv zeta.
    change (listening (withPlayback playing s)) with (listening s).
    rewrite Hlis, cancelFrame_empties by exact H1. reflexivity.
  - intros h cl Hin.
    destruct (wellKept_pending _ _ _ Hk Hin) as (Hpd & Hr & Hh & _ & Hc & _).
    unfold step. rewrite Hpd. cbn [callbackOf]. rewrite N.eqb_refl.
    unfold runAnimate, requestFrame, withState.
    cbn [state currentLineIndex setCurrentLineIndex pending nextHandle filter
         fst negb].
    rewrite N.eqb_refl. cbn [negb]. subst cl. split; [reflexivity|].
    exists (nextHandle s). reflexivity.
Qed.

Lemma play_and_frames_keep_one_loop_witness :
  (exists h, pending (step Play startedScreen)
             = [(h, currentClosure startedScreen)])
  /\ currentLineIndex (state (step (Frame 1 6) startedScreen))
     = newIndex threeLines (-0.3) 6.
Proof.
  destruct (play_and_frames_keep_one_loop
              [TimedLyricsChanged threeLines; Play] 6) as (H1 & _ & H3).
  - discriminate.
  - split; [exact H1|].
    destruct (H3 1%N (mkClosure threeLines (-0.3))) as [H _];
      [left; reflexivity | exact H].
Defined.

Lemma cancelFrame_playbackState s :
  playbackState (cancelFrame s) = playbackState s.
Proof.
  unfold cancelFrame. destruct (frameRef s) as [h|]; [|reflexivity].
  now destruct (h =? 0)%N.
Qed.

Lemma rerunEffect_playbackState s :
  playbackState (rerunEffect s) = playbackState s.
Proof.
  unfold rerunEffect.
  destruct (listening s);
    destruct (length (timedLyrics (state s)) =? 0)%nat;
    unfold withListening; cbn [playbackState];
    try rewrite cancelFrame_playbackState; reflexivity.
Qed.

Lemma step_keepsPlaying e s :
  keepsPlaying e = true -> playbackState s = playing ->
  playbackState (step e s) = playing.
Proof.
  intros He Hs. destruct e as [|t| |h t|v|lines]; unfold step; cbv zeta.
  - change (listening (withPlayback playing s)) with (listening s).
    destruct (listening s); [|reflexivity].
    unfold requestFrame. cbn [playbackState]. now rewrite cancelFrame_playbackState.
  - simpl in He. apply negb_true_iff in He. rewrite He.
    destruct (listening s); [|assumption].
    now rewrite cancelFrame_playbackState.
  - discriminate.
  - destruct (callbackOf h (pending s)); [|assumption].
    unfold runAnimate, requestFrame, withState. cbn [playbackState]. assumption.
  - destruct (Qeq_bool v (timingOffset (state s))); [assumption|].
    rewrite rerunEffect_playbackState. assumption.
  - rewrite rerunEffect_playbackState. assumption.
Qed.

(** X24.  The lyric panel is shown while the playback state is [playing].  Once
    playing, it stays so through pauses away from position [0], frames and
    changes of offset or lines; the end of the track and a pause at position
    [0] are the only events that leave it, and a play event always enters
    it. *)
Theorem playing_until_end_or_pause_at_zero :
  forall (events : list Event) (s : Screen),
    (playbackState s = playing -> forallb keepsPlaying events = true ->
     playbackState (run events s) = playing)
    /\ playbackState (step Play s) = playing
    /\ playbackState (step Ended s) = ended
    /\ playbackState (step (Pause 0) s) = idle.
Proof.
  intros events s. split; [|split; [|split]].
  - revert s. induction events as [|e events IH]; intros s Hs He; [assumption|].
    simpl in He. apply andb_true_iff in He. destruct He as [He Hes].
    simpl. apply IH; [|assumption]. now apply step_keepsPlaying.
  - unfold step. cbv zeta.
    change (listening (withPlayback playing s)) with (listening s).
    destruct (listening s); [|reflexivity].
    unfold requestFrame. cbn [playbackState]. now rewrite cancelFrame_playbackState.
  - unfold step. cbv zeta.
    change (listening (withPlayback ended s)) with (listening s).
    destruct (listening s); [|reflexivity].
    unfold withState. cbn [playbackState]. now rewrite cancelFrame_playbackState.
  - unfold step. cbv zeta. change (Qeq_bool 0 0) with true. cbv iota.
    change (listening (withPlayback idle s)) with (listening s).
    destruct (listening s); [|reflexivity].
    now rewrite cancelFrame_playbackState.
Qed.

Lemma playing_until_end_or_pause_at_zero_witness :
  playbackState
    (run [Pause 3; Frame 1 3; OffsetChanged 0.5; Play; Frame 3 4] startedScreen)
  = playing.
Proof.
  apply (playing_until_end_or_pause_at_zero
           [Pause 3; Frame 1 3; OffsetChanged 0.5; Play; Frame 3 4] startedScreen);
    reflexivity.
Defined.

End SyncLoopProperties.

(** ** The validator against the policy *)

Lemma trimStart_ws_app w x :
  forallb isWhiteSpace w = true -> trimStart (w ++ x) = trimStart x.
Proof.
  induction w as [|c w IH]; [reflexivity|]. simpl.
  intros H. apply andb_true_iff in H. destruct H as [Hc Hw].
  rewrite Hc. now apply IH.
Qed.

Lemma trimStart_all_ws w : forallb isWhiteSpace w = true -> trimStart w = [].
Proof.
  intros H. rewrite <- (app_nil_r w). now rewrite trimStart_ws_app.
Qed.

Lemma trimStart_head s c r : trimStart s = c :: r -> isWhiteSpace c = false.
Proof.
  induction s as [|d s IH]; [discriminate|]. simpl.
  destruct (isWhiteSpace d) eqn:E; [assumption|]. now intros [= <- _].
Qed.

Lemma forallb_rev {A} (f : A -> bool) l :
  forallb f (rev l) = forallb f l.
Proof.
  induction l as [|x l IH]; [reflexivity|]. simpl.
  rewrite forallb_app, IH. simpl. rewrite andb_true_r. apply andb_comm.
Qed.

Lemma trimEnd_app_ws x w :
  forallb isWhiteSpace w = true -> trimEnd (x ++ w) = trimEnd x.
Proof.
  intros H. unfold trimEnd. rewrite rev_app_distr, trimStart_ws_app;
    [reflexivity|]. now rewrite forallb_rev.
Qed.

Lemma trim_app_ws x w :
  forallb isWhiteSpace w = true -> trim (x ++ w) = trim x.
Proof.
  intros Hw. unfold trim.
  destruct (trimStart_decomp x) as (p & Hx & Hp).
  rewrite Hx at 1. rewrite <- app_assoc, trimStart_ws_app by assumption.
  destruct (trimStart x) as [|c u] eqn:E.
  - simpl. now rewrite trimStart_all_ws.
  - pose proof (trimStart_head _ _ _ E) as Hc.
    simpl. rewrite Hc. change (c :: u ++ w) with ((c :: u) ++ w).
    now apply trimEnd_app_ws.
Qed.

Lemma trim_ws_app w x :
  forallb isWhiteSpace w = true -> trim (w ++ x) = trim x.
Proof. intros H. unfold trim. now rewrite trimStart_ws_app. Qed.

Lemma trim_all_ws w : forallb isWhiteSpace w = true -> trim w = [].
Proof. intros H. unfold trim. now rewrite trimStart_all_ws. Qed.

Lemma shownLines_cons h t :
  shownLines (h :: t)
  = (if isEmpty (trim h) then [] else [trim h]) ++ shownLines t.
Proof. unfold shownLines. simpl. now destruct (isEmpty (trim h)). Qed.

Lemma shownLines_split s :
  shownLines (split_lf s)
  = (if isEmpty (trim (hd [] (split_lf s))) then []
     else [trim (hd [] (split_lf s))])
    ++ shownLines (tl (split_lf s)).
Proof.
  pose proof (split_lf_length s). destruct (split_lf s) as [|h t];
    [simpl in *; lia|]. apply shownLines_cons.
Qed.

Lemma shownLines_blank ls :
  (forall l, In l ls -> forallb isWhiteSpace l = true) -> shownLines ls = [].
Proof.
  induction ls as [|l ls IH]; intros H; [reflexivity|].
  rewrite shownLines_cons, (trim_all_ws l) by (apply H; now left).
  simpl. apply IH. intros l' Hl'. apply H. now right.
Qed.

Lemma split_lf_ws_lines q l :
  forallb isWhiteSpace q = true -> In l (split_lf q) ->
  forallb isWhiteSpace l = true.
Proof.
  intros Hq Hl. destruct (split_lf_In _ _ Hl) as (a & b & E).
  rewrite E, !forallb_app in Hq.
  apply andb_true_iff in Hq. destruct Hq as [_ Hq].
  now apply andb_true_iff in Hq.
Qed.

Lemma hd_split_In s : In (hd [] (split_lf s)) (split_lf s).
Proof.
  pose proof (split_lf_length s). destruct (split_lf s); [simpl in *; lia|].
  now left.
Qed.

(** Blanks after a text change its lines only by blanks. *)
Lemma split_lf_app_ws q :
  forallb isWhiteSpace q = true ->
  forall m,
    (forall pre, trim (pre ++ hd [] (split_lf (m ++ q)))
                 = trim (pre ++ hd [] (split_lf m)))
    /\ shownLines (tl (split_lf (m ++ q))) = shownLines (tl (split_lf m)).
Proof.
  intros Hq. induction m as [|c m [IHh IHt]].
  - simpl app. split.
    + intros pre. simpl. rewrite app_nil_r. apply trim_app_ws.
      apply (split_lf_ws_lines q); [assumption | apply hd_split_In].
    + simpl. apply shownLines_blank. intros l Hl.
      apply (split_lf_ws_lines q); [assumption | now apply In_tl].
  - change ((c :: m) ++ q) with (c :: (m ++ q)).
    rewrite !split_lf_cons. destruct (c =? LF)%N.
    + split; [reflexivity|]. cbn [tl].
      rewrite !shownLines_split, IHt.
      specialize (IHh []). simpl in IHh. now rewrite IHh.
    + split; [|exact IHt]. intros pre. cbn [hd].
      specialize (IHh (pre ++ [c])). rewrite <- !app_assoc in IHh. exact IHh.
Qed.

Lemma shownLines_app_ws m q :
  forallb isWhiteSpace q = true ->
  shownLines (split_lf (m ++ q)) = shownLines (split_lf m).
Proof.
  intros Hq. destruct (split_lf_app_ws q Hq m) as [Hh Ht].
  rewrite !shownLines_split, Ht. specialize (Hh []). simpl in Hh.
  now rewrite Hh.
Qed.

Lemma shownLines_ws_app p m :
  forallb isWhiteSpace p = true ->
  shownLines (split_lf (p ++ m)) = shownLines (split_lf m).
Proof.
  induction p as [|c p IH]; [reflexivity|]. simpl forallb.
  intros H. apply andb_true_iff in H. destruct H as [Hc Hp].
  simpl app. rewrite split_lf_cons. destruct (c =? LF)%N.
  - rewrite shownLines_cons. simpl. now apply IH.
  - rewrite shownLines_cons.
    change (c :: hd [] (split_lf (p ++ m)))
      with ([c] ++ hd [] (split_lf (p ++ m))).
    rewrite trim_ws_app by (simpl; now rewrite Hc).
    rewrite <- shownLines_split. now apply IH.
Qed.

(** Trimming a text does not change its non-blank lines. *)
Lemma shownLines_trim text :
  shownLines (split_lf (trim text)) = shownLines (split_lf text).
Proof.
  destruct (trim_decomp text) as (p & q & E & Hp & Hq).
  rewrite E at 2. rewrite shownLines_ws_app by assumption.
  now rewrite shownLines_app_ws.
Qed.

Lemma filter_length_le {A} (f : A -> bool) l :
  (length (filter f l) <= length l)%nat.
Proof.
  induction l as [|x l IH]; simpl; [lia|]. destruct (f x); simpl; lia.
Qed.

Lemma matching_among_shown ls :
  length (filter (fun l => lrcLineRegex_test (trim l)) ls)
  = length (filter lrcLineRegex_test (shownLines ls)).
Proof.
  unfold shownLines. induction ls as [|l ls IH]; [reflexivity|]. simpl.
  destruct (trim l) as [|c u] eqn:E; simpl.
  - exact IH.
  - rewrite E. destruct (lrcLineRegex_test (c :: u)); simpl; now rewrite IH.
Qed.

Lemma matching_among_nonblank ls :
  length (filter (fun l => lrcLineRegex_test (trim l))
                 (filter (fun l => negb (isEmpty (trim l))) ls))
  = length (filter lrcLineRegex_test (shownLines ls)).
Proof.
  unfold shownLines. induction ls as [|l ls IH]; [reflexivity|]. simpl.
  destruct (trim l) as [|c u] eqn:E; simpl; [exact IH|].
  rewrite E. destruct (lrcLineRegex_test (c :: u)); simpl; now rewrite IH.
Qed.

Lemma isLrcFormat_count text :
  isLrcFormat text = true ->
  (length (split_lf (trim text))
   < 2 * length (filter (fun l => lrcLineRegex_test (trim l))
                        (split_lf (trim text))))%nat.
Proof.
  unfold isLrcFormat. destruct (isEmpty text); [discriminate|].
  pose proof (split_lf_length (trim text)) as Hlen.
  rewrite andb_true_iff, ratio_above_half by lia. lia.
Qed.

(** X25.  The validator is at least as strict as the policy on non-empty lines:
    a text it accepts has more than half of its non-empty lines matching
    the line-timestamp pattern. *)
Theorem accepted_text_meets_the_policy :
  forall text : jsstr,
    isLrcFormat text = true -> moreThanHalfOfNonEmptyLines text = true.
Proof.
  intros text H. apply isLrcFormat_count in H.
  unfold moreThanHalfOfNonEmptyLines. apply Nat.ltb_lt.
  rewrite matching_among_nonblank, <- shownLines_trim.
  rewrite matching_among_shown in H.
  assert (Hle : (length (filter (fun l => negb (isEmpty (trim l))) (split_lf text))
                 <= length (split_lf (trim text)))%nat).
  { transitivity (length (shownLines (split_lf text))).
    - unfold shownLines. now rewrite length_map.
    - rewrite <- shownLines_trim. unfold shownLines. rewrite length_map.
      apply filter_length_le. }
  lia.
Qed.

Lemma accepted_text_meets_the_policy_witness :
  moreThanHalfOfNonEmptyLines sunLyrics = true.
Proof.
  apply (accepted_text_meets_the_policy sunLyrics). reflexivity.
Defined.

(** ** Texts in the requested format *)

Lemma isWhiteSpace_printable c :
  (33 <= c <= 159)%N -> isWhiteSpace c = false.
Proof.
  intros H. unfold isWhiteSpace.
  repeat match goal with
         | |- context [(?a <=? ?b)%N] => destruct (N.leb_spec a b)
         | |- context [(?a =? ?b)%N] => destruct (N.eqb_spec a b)
         end; simpl; try reflexivity; lia.
Qed.

Lemma stampText_printable st c :
  wellFormed st -> In c (stampText st) -> isWhiteSpace c = false.
Proof.
  destruct st as [m1 m2 s1 s2 sep f1 f2 f3].
  intros (Hm1 & Hm2 & Hs1 & Hs2 & Hsep & Hf1 & Hf2 & Hf3) Hin.
  apply isWhiteSpace_printable.
  unfold isDecimalDigit in *. simpl in *.
  unfold stampText, fracText, digitChar, LBRACKET, RBRACKET, COLON, DOT in *.
  cbn [minTens minUnits secTens secUnits fracSep fracFirst fracSecond fracThird
       app In] in Hin.
  destruct f3 as [d|]; cbn [app In] in Hin;
    repeat (destruct Hin as [Hin|Hin]; [destruct Hsep; subst; lia|]);
    destruct Hin.
Qed.

Lemma trimEnd_printable_app u b :
  (forall c, In c u -> isWhiteSpace c = false) ->
  trimEnd (u ++ b) = u ++ trimEnd b.
Proof.
  induction u as [|c u IH]; intros H; [reflexivity|].
  simpl app. rewrite trimEnd_cons_nonws by (apply H; now left).
  rewrite IH; [reflexivity|]. intros d Hd. apply H. now right.
Qed.

Lemma stampText_head st : exists t, stampText st = LBRACKET :: t.
Proof. destruct st. eexists. reflexivity. Qed.

Lemma stamped_line_matches l :
  stampedAtStart l -> lrcLineRegex_test (trim l) = true.
Proof.
  intros (st & body & Hwf & -> & _). unfold trim.
  destruct (stampText_head st) as (t & Et).
  assert (Hs : trimStart (stampText st ++ body) = stampText st ++ body).
  { rewrite Et. reflexivity. }
  rewrite Hs, trimEnd_printable_app
    by (intros c Hc; now apply (stampText_printable st)).
  unfold lrcLineRegex_test. now rewrite matchAt_stamp.
Qed.

Lemma split_lf_noLF u : ~ In LF u -> split_lf u = [u].
Proof.
  intros H. rewrite <- (app_nil_r u) at 1.
  rewrite (split_lf_prefix_noLF _ _ H). simpl. now rewrite app_nil_r.
Qed.

Lemma split_lf_unlines ls :
  ls <> [] -> (forall l, In l ls -> ~ In LF l) -> split_lf (unlines ls) = ls.
Proof.
  induction ls as [|l ls IH]; [congruence|]. intros _ H.
  destruct ls as [|l' ls].
  - simpl. apply split_lf_noLF. apply H. now left.
  - change (unlines (l :: l' :: ls)) with (l ++ LF :: unlines (l' :: ls)).
    rewrite split_lf_prefix_noLF by (apply H; now left).
    rewrite split_lf_cons. simpl N.eqb. cbv iota. cbn [hd tl].
    rewrite app_nil_r, IH; [reflexivity | discriminate|].
    intros x Hx. apply H. now right.
Qed.

Lemma split_lf_count s :
  length (split_lf s) = S (count_occ N.eq_dec s LF).
Proof.
  induction s as [|c s IH]; [reflexivity|].
  rewrite split_lf_cons. cbn [count_occ].
  destruct (N.eq_dec c LF) as [->|Hc].
  - simpl. now rewrite IH.
  - apply N.eqb_neq in Hc. rewrite Hc. rewrite <- IH.
    pose proof (split_lf_length s). destruct (split_lf s); simpl in *; lia.
Qed.

Lemma stampedAtStart_noLF l : stampedAtStart l -> ~ In LF l.
Proof.
  intros (st & body & Hwf & -> & Hb) Hin. apply in_app_or in Hin.
  destruct Hin as [Hin|Hin]; [|now apply Hb].
  now apply (stampText_no_LF st Hwf).
Qed.

(** X26.  A text in the format the prompt asks for is accepted: when every
    line begins with a well-formed timestamp, [isLrcFormat] holds of the
    lines written out with newlines between them. *)
Theorem stamped_text_is_accepted :
  forall lines : list jsstr,
    lines <> [] -> Forall stampedAtStart lines ->
    isLrcFormat (unlines lines) = true.
Proof.
  intros lines Hne Hall. rewrite Forall_forall in Hall.
  assert (Hsplit : split_lf (unlines lines) = lines).
  { apply split_lf_unlines; [assumption|].
    intros l Hl. now apply stampedAtStart_noLF, Hall. }
  assert (Hshown : shownLines (split_lf (trim (unlines lines))) = map trim lines).
  { rewrite shownLines_trim, Hsplit. unfold shownLines. f_equal.
    apply forallb_filter_id. apply forallb_forall. intros l Hl.
    pose proof (stamped_line_matches l (Hall l Hl)) as Hm.
    unfold lrcLineRegex_test in Hm. now destruct (trim l). }
  assert (Hcount : length (filter (fun l => lrcLineRegex_test (trim l))
                                  (split_lf (trim (unlines lines))))
                   = length lines).
  { rewrite matching_among_shown, Hshown.
    rewrite forallb_filter_id, length_map; [reflexivity|].
    apply forallb_forall. intros x Hx. apply in_map_iff in Hx.
    destruct Hx as (l & <- & Hl). now apply stamped_line_matches, Hall. }
  assert (Hlen : (length (split_lf (trim (unlines lines))) <= length lines)%nat).
  { rewrite <- Hsplit at 2. rewrite !split_lf_count.
    destruct (trim_decomp (unlines lines)) as (p & q & E & _ & _).
    rewrite E at 2. rewrite !count_occ_app. apply le_n_S.
    etransitivity; [apply Nat.le_add_r | apply Nat.le_add_l]. }
  assert (Hnz : isEmpty (unlines lines) = false).
  { destruct (unlines lines) as [|c u] eqn:Eu; [|reflexivity].
    exfalso. simpl in Hsplit.
    destruct lines as [|l ls]; [congruence|]. injection Hsplit as <- <-.
    destruct (Hall [] (or_introl eq_refl)) as (st & body & _ & E & _).
    destruct (stampText_head st) as (t & Et). rewrite Et in E. discriminate. }
  unfold isLrcFormat. rewrite Hnz.
  pose proof (split_lf_length (trim (unlines lines))) as H1.
  apply andb_true_iff. split; [apply Nat.ltb_lt; lia|].
  apply ratio_above_half; [lia|]. rewrite Hcount.
  destruct lines; [congruence|]. simpl length in *. lia.
Qed.

Lemma stamped_text_is_accepted_witness :
  isLrcFormat (unlines [stampText stampA ++ str " la"; stampText stampB ++ str " di "])
  = true.
Proof.
  apply (stamped_text_is_accepted
           [stampText stampA ++ str " la"; stampText stampB ++ str " di "]);
    [discriminate|].
  constructor; [|constructor; [|constructor]].
  - exists stampA, (str " la"). split; [exact stampA_wellFormed|].
    split; [reflexivity|]. vm_compute. intuition discriminate.
  - exists stampB, (str " di "). split; [exact stampB_wellFormed|].
    split; [reflexivity|]. vm_compute. intuition discriminate.
Defined.
